(** * gcsfuse: the file system coordinator of fs/fs.go

    A shallow embedding of [fs/fs.go]: the [fileSystem] struct, its
    constructor, the helpers and the [fuse.FileSystem] methods, followed
    by the properties of the identifier tables that the design document
    states about them.

    Conventions.
    - [fuse.InodeID] and [fuse.HandleID] are [uint64]: they are modelled
      as [Z] and every increment is reduced modulo [2^64].
    - A Go map is a [gmap]; reading an absent key gives the zero value
      ([nil] for the pointer and interface values stored here), which is
      [None] of the lookup.
    - A Go result pair [(resp, err)] is kept as a pair of options, [None]
      being [nil]; a run-time panic is a separate outcome.
    - Every method takes [fs.mu] for its whole body, so calls are
      serialised and a call is one transition of the struct.  A panic
      unwinds through the deferred [Unlock]; what the call wrote before
      it is in the struct when the invariants are checked there, so a
      transition keeps the state of a panicking call too.
    - Nothing in the file system recovers from a panic: it ends the
      process.  [program] serves calls up to and including the first
      that panics.  [run] serves every call, whatever the outcome of the
      ones before; each state of [program] is one of [run], so what is
      proved of every [run] holds of the program. *)

From Stdlib Require Import ZArith String Ascii List Lia.
From stdpp Require Import base option gmap strings list fin_maps.

Local Open Scope string_scope.
Local Open Scope Z_scope.

(** ** Collaborators *)

Definition error := string.

(** [fuse.RootInodeID], the identifier the kernel uses for the root. *)
Definition RootInodeID : Z := 1.

Definition uint64_modulus : Z := 18446744073709551616.

(** [x++] on a [uint64]. *)
Definition incr64 (x : Z) : Z := (x + 1) mod uint64_modulus.

(** [*inode.DirInode] as fs.go sees it: what [ID()] and [Name()] return.
    The constructor is called once per name (the name index is consulted
    first and never loses a key), so two pointers are equal exactly when
    these two components are. *)
Record DirInode := mkDirInode { dirID : Z; dirName : string }.

(** [inode.NewDirInode(bucket, id, name)]. *)
Definition NewDirInode (id : Z) (name : string) : DirInode :=
  mkDirInode id name.

(** [*inode.FileInode]; fs.go only ever asks for its [ID()]. *)
Record FileInode := mkFileInode { fileID : Z }.

(** The dynamic type of a non-nil [inode.Inode]. *)
Inductive Inode :=
| IDir (d : DirInode)
| IFile (f : FileInode).

Definition ID (i : Inode) : Z :=
  match i with
  | IDir d => dirID d
  | IFile f => fileID f
  end.

(** [fuse.InodeAttributes]. *)
Record InodeAttributes := mkAttrs {
  Size : Z;
  Mode : Z;
  Mtime : Z;
  Uid : Z;
  Gid : Z
}.

Definition withOwner (a : InodeAttributes) (u g : Z) : InodeAttributes :=
  mkAttrs (Size a) (Mode a) (Mtime a) u g.

(** [*storage.Object]; fs.go reads its [Name]. *)
Record Object := mkObject { objName : string }.

(** [*dirHandle], created by [newDirHandle(in)]. *)
Record dirHandle := mkDirHandle { handleDir : DirInode }.

Definition newDirHandle (d : DirInode) : dirHandle := mkDirHandle d.

Record ReadDirRequest := mkReadDirRequest {
  rdHandle : Z;
  rdOffset : Z
}.

Record ReadDirResponse := mkReadDirResponse { rdData : list string }.

(** What the bucket and the handle logic answer during one call.  These
    calls leave the coordinator's collections alone; their answers may
    differ from one call to the next, so each request carries its own. *)
Record World := mkWorld {
  LookUpChild : DirInode -> string -> option Object * option error;
  Attributes : DirInode -> InodeAttributes * option error;
  handleReadDir :
    dirHandle -> ReadDirRequest -> option ReadDirResponse * option error
}.

(** ** The struct *)

(** The mutable state of [fileSystem].  The dependencies [clock] and
    [bucket] are fixed at construction and [mu] is the lock; the values
    of [handles], declared [interface{}], are the [*dirHandle] that
    [OpenDir] stores. *)
Record fileSystem := mkFS {
  uid : Z;
  gid : Z;
  inodes : gmap Z Inode;
  nextInodeID : Z;
  dirNameIndex : gmap string DirInode;
  handles : gmap Z dirHandle;
  nextHandleID : Z
}.

Definition NewFileSystem : fileSystem :=
  let root := NewDirInode RootInodeID "" in
  {| uid := 0;
     gid := 0;
     inodes := <[RootInodeID := IDir root]> ∅;
     nextInodeID := RootInodeID + 1;
     dirNameIndex := <["" := root]> ∅;
     handles := ∅;
     nextHandleID := 0 |}.

(** ** Helpers *)

Definition isDirName (name : string) : bool :=
  String.eqb name ""
  || match String.get (String.length name - 1) name with
     | Some c => Ascii.eqb c "/"
     | None => false
     end.

(** Outcome of a method: the Go result pair, or a panic. *)
Inductive outcome (R : Type) :=
| Returns (resp : option R) (err : option error)
| Panics.
Arguments Returns {R} resp err.
Arguments Panics {R}.

#[global] Instance DirInode_eq_dec : EqDecision DirInode.
Proof. solve_decision. Defined.

(** The loops of [checkInvariants] range over the maps; every iteration
    either panics or goes on, so the routine is the conjunction of its
    checks, [true] when it returns. *)
Definition inodeKeyOK (fs : fileSystem) (id : Z) : bool :=
  negb ((id <? RootInodeID) || (nextInodeID fs <=? id)).

Definition rootIsDir (fs : fileSystem) : bool :=
  match inodes fs !! RootInodeID with
  | Some (IDir _) => true
  | _ => false
  end.

Definition inodeOK (fs : fileSystem) (id : Z) (i : Inode) : bool :=
  (ID i =? id)
  && match i with
     | IDir typed =>
         isDirName (dirName typed)
         && bool_decide (dirNameIndex fs !! dirName typed = Some typed)
     | IFile _ => true
     end.

Definition isDir (i : Inode) : bool :=
  match i with IDir _ => true | IFile _ => false end.

Definition isFile (i : Inode) : bool :=
  match i with IDir _ => false | IFile _ => true end.

Definition dirsSeen (fs : fileSystem) : nat :=
  length (filter (λ kv, isDir kv.2 = true) (map_to_list (inodes fs))).

Definition filesSeen (fs : fileSystem) : nat :=
  length (filter (λ kv, isFile kv.2 = true) (map_to_list (inodes fs))).

Definition handleKeyOK (fs : fileSystem) (id : Z) : bool :=
  negb (nextHandleID fs <=? id).

Definition checkInvariants (fs : fileSystem) : bool :=
  forallb (λ kv, inodeKeyOK fs kv.1) (map_to_list (inodes fs))
  && rootIsDir fs
  && forallb (λ kv, inodeOK fs kv.1 kv.2) (map_to_list (inodes fs))
  && (size (dirNameIndex fs) =? dirsSeen fs)%nat
  && forallb (λ kv, handleKeyOK fs kv.1) (map_to_list (handles fs)).

(** [None] is the panic of the type assertion; the read lock it takes on
    the inode guards no state of the coordinator. *)
Definition getDirForReadingOrDie (fs : fileSystem) (id : Z) : option DirInode :=
  match inodes fs !! id with
  | Some (IDir d) => Some d
  | _ => None
  end.

Definition getAttributes (fs : fileSystem) (w : World) (d : DirInode)
  : InodeAttributes * option error :=
  let '(attrs, err) := Attributes w d in
  match err with
  | Some _ => (attrs, err)
  | None => (withOwner attrs (uid fs) (gid fs), None)
  end.

Definition lookUpOrCreateDirInode (fs : fileSystem) (o : Object)
  : (DirInode * option error) * fileSystem :=
  match dirNameIndex fs !! objName o with
  | Some i => ((i, None), fs)
  | None =>
      let id := nextInodeID fs in
      let i := NewDirInode id (objName o) in
      ((i, None),
       {| uid := uid fs;
          gid := gid fs;
          inodes := <[id := IDir i]> (inodes fs);
          nextInodeID := incr64 id;
          dirNameIndex := <[dirName i := i]> (dirNameIndex fs);
          handles := handles fs;
          nextHandleID := nextHandleID fs |})
  end.

(** ** fuse.FileSystem methods *)

Record ChildInodeEntry := mkEntry {
  Child : Z;
  entryAttributes : InodeAttributes
}.

Record LookUpInodeResponse := mkLookUpInodeResponse { Entry : ChildInodeEntry }.

Record GetInodeAttributesResponse := mkGetInodeAttributesResponse {
  respAttributes : InodeAttributes
}.

Record OpenDirResponse := mkOpenDirResponse { Handle : Z }.

Definition zeroAttributes : InodeAttributes := mkAttrs 0 0 0 0 0.

Definition Init (fs : fileSystem) (reqUid reqGid : Z)
  : outcome unit * fileSystem :=
  (Returns (Some tt) None,
   {| uid := reqUid;
      gid := reqGid;
      inodes := inodes fs;
      nextInodeID := nextInodeID fs;
      dirNameIndex := dirNameIndex fs;
      handles := handles fs;
      nextHandleID := nextHandleID fs |}).

Definition errTODO : error := "TODO(jacobsa): Handle files in the same way.".

(** "Fill out the response": the two stores through [resp] that end
    [LookUpInode].  A store through a nil [resp] panics. *)
Definition fillOutResponse (w : World) (resp : option LookUpInodeResponse)
    (i : DirInode) : outcome LookUpInodeResponse :=
  match resp with
  | None => Panics
  | Some r =>
      let '(attrs, err) := Attributes w i in
      Returns (Some (mkLookUpInodeResponse (mkEntry (dirID i) attrs))) err
  end.

Definition LookUpInode (fs : fileSystem) (w : World) (reqParent : Z)
    (reqName : string) : outcome LookUpInodeResponse * fileSystem :=
  (* the named result [resp] is never assigned: it is nil throughout *)
  let resp : option LookUpInodeResponse := None in
  match inodes fs !! reqParent with
  | Some (IDir parent) =>
      match LookUpChild w parent reqName with
      | (_, Some err) => (Returns resp (Some err), fs)
      | (None, None) => (Panics, fs)
      | (Some o, None) =>
          if isDirName (objName o) then
            let '((i, err), fs') := lookUpOrCreateDirInode fs o in
            match err with
            | Some e => (Returns resp (Some e), fs')
            | None => (fillOutResponse w resp i, fs')
            end
          else (Returns resp (Some errTODO), fs)
      end
  | _ => (Panics, fs)
  end.

Definition GetInodeAttributes (fs : fileSystem) (w : World) (reqInode : Z)
  : outcome GetInodeAttributesResponse * fileSystem :=
  match inodes fs !! reqInode with
  | Some (IDir typed) =>
      let '(attrs, err) := getAttributes fs w typed in
      let resp := Some (mkGetInodeAttributesResponse attrs) in
      match err with
      | Some e => (Returns resp (Some ("DirInode.Attributes: " ++ e)), fs)
      | None => (Returns resp None, fs)
      end
  | _ => (Panics, fs)
  end.

Definition OpenDir (fs : fileSystem) (reqInode : Z)
  : outcome OpenDirResponse * fileSystem :=
  match getDirForReadingOrDie fs reqInode with
  | None => (Panics, fs)
  | Some i =>
      let handleID := nextHandleID fs in
      (Returns (Some (mkOpenDirResponse handleID)) None,
       {| uid := uid fs;
          gid := gid fs;
          inodes := inodes fs;
          nextInodeID := nextInodeID fs;
          dirNameIndex := dirNameIndex fs;
          handles := <[handleID := newDirHandle i]> (handles fs);
          nextHandleID := incr64 handleID |})
  end.

Definition ReadDir (fs : fileSystem) (w : World) (req : ReadDirRequest)
  : outcome ReadDirResponse * fileSystem :=
  match handles fs !! rdHandle req with
  | None => (Panics, fs)
  | Some dh =>
      let '(resp, err) := handleReadDir w dh req in
      (Returns resp err, fs)
  end.

Definition ReleaseDirHandle (fs : fileSystem) (reqHandle : Z)
  : outcome unit * fileSystem :=
  match handles fs !! reqHandle with
  | None => (Panics, fs)
  | Some _ =>
      (Returns (Some tt) None,
       {| uid := uid fs;
          gid := gid fs;
          inodes := inodes fs;
          nextInodeID := nextInodeID fs;
          dirNameIndex := dirNameIndex fs;
          handles := delete reqHandle (handles fs);
          nextHandleID := nextHandleID fs |})
  end.

(** ** Sequences of calls *)

Inductive request :=
| InitReq (reqUid reqGid : Z)
| LookUpInodeReq (reqParent : Z) (reqName : string)
| GetInodeAttributesReq (reqInode : Z)
| OpenDirReq (reqInode : Z)
| ReadDirReq (req : ReadDirRequest)
| ReleaseDirHandleReq (reqHandle : Z).

(** The struct a call leaves behind. *)
Definition step (fs : fileSystem) (c : World * request) : fileSystem :=
  match c.2 with
  | InitReq u g => (Init fs u g).2
  | LookUpInodeReq p n => (LookUpInode fs c.1 p n).2
  | GetInodeAttributesReq i => (GetInodeAttributes fs c.1 i).2
  | OpenDirReq i => (OpenDir fs i).2
  | ReadDirReq r => (ReadDir fs c.1 r).2
  | ReleaseDirHandleReq h => (ReleaseDirHandle fs h).2
  end.

Definition run (calls : list (World * request)) : fileSystem :=
  fold_left step calls NewFileSystem.

(** * Vocabulary of the properties *)

(** ** Bucket contents used in examples *)

(** A bucket that holds an object under every name asked for, with
    attributes owned by uid 0. *)
Definition echoWorld : World :=
  {| LookUpChild := λ _ name, (Some (mkObject name), None);
     Attributes := λ _, (mkAttrs 4096 493 0 0 0, None);
     handleReadDir := λ _ _, (Some (mkReadDirResponse []), None) |}.

(** ** What a call can do to the inode tables *)

Definition sameInodes (fs fs' : fileSystem) : Prop :=
  inodes fs' = inodes fs /\ nextInodeID fs' = nextInodeID fs /\
  dirNameIndex fs' = dirNameIndex fs.

Definition mintedDir (name : string) (fs fs' : fileSystem) : Prop :=
  isDirName name = true /\
  dirNameIndex fs !! name = None /\
  inodes fs' =
    <[nextInodeID fs := IDir (NewDirInode (nextInodeID fs) name)]> (inodes fs) /\
  nextInodeID fs' = incr64 (nextInodeID fs) /\
  dirNameIndex fs' =
    <[name := NewDirInode (nextInodeID fs) name]> (dirNameIndex fs).

(** ** Invariants that hold whatever the counters do *)

Record Sound (fs : fileSystem) : Prop := {
  sound_dirs : forall k i, inodes fs !! k = Some i -> isDir i = true;
  sound_root_live : exists d, inodes fs !! RootInodeID = Some (IDir d);
  sound_indexed : forall k d,
    inodes fs !! k = Some (IDir d) -> dirNameIndex fs !! dirName d = Some d;
  sound_name : forall n d,
    dirNameIndex fs !! n = Some d -> dirName d = n /\ isDirName n = true;
  sound_root_name :
    dirNameIndex fs !! "" = Some (NewDirInode RootInodeID "")
}.

(** ** Invariants that hold until the inode counter wraps around *)

Record Tight (fs : fileSystem) : Prop := {
  tight_keys : forall k,
    is_Some (inodes fs !! k) <-> RootInodeID <= k < nextInodeID fs;
  tight_id : forall k i, inodes fs !! k = Some i -> ID i = k;
  tight_index : forall n d,
    dirNameIndex fs !! n = Some d -> inodes fs !! dirID d = Some (IDir d);
  tight_size : size (dirNameIndex fs) = dirsSeen fs;
  tight_root :
    inodes fs !! RootInodeID = Some (IDir (NewDirInode RootInodeID ""));
  tight_range : nextInodeID fs < uint64_modulus
}.

(** The keys of the handle table are below the handle counter. *)
Record HandlesOK (fs : fileSystem) : Prop := {
  handles_keys : forall h dh,
    handles fs !! h = Some dh -> 0 <= h < nextHandleID fs;
  handles_range : 0 <= nextHandleID fs < uint64_modulus
}.

(** The number of [LookUpInode] calls bounds the number of mints. *)
Definition isLookUp (c : World * request) : bool :=
  match c.2 with
  | LookUpInodeReq _ _ => true
  | _ => false
  end.

Fixpoint lookUps (calls : list (World * request)) : Z :=
  match calls with
  | [] => 0
  | c :: calls' => (if isLookUp c then 1 else 0) + lookUps calls'
  end.

(** ** Inode identifiers *)

(** No two entries of the inode table hold inodes with one identifier. *)
Definition idsDistinct (fs : fileSystem) : Prop :=
  forall k1 k2 i1 i2,
    inodes fs !! k1 = Some i1 -> inodes fs !! k2 = Some i2 ->
    ID i1 = ID i2 -> k1 = k2.

(** The keys of the inode table are the identifiers from the root's up
    to, and not including, the counter: each of them was handed out, and
    nothing else was. *)
Definition keysFillRange (fs : fileSystem) : Prop :=
  forall k, is_Some (inodes fs !! k) <-> RootInodeID <= k < nextInodeID fs.

(** A call either leaves table and counter alone, or takes the counter's
    value, a value above the root's that is no key yet, as the key of a
    new directory inode and moves the counter up by one. *)
Definition mintsInOrder (fs fs' : fileSystem) : Prop :=
  (inodes fs' = inodes fs /\ nextInodeID fs' = nextInodeID fs) \/
  (exists name,
      RootInodeID < nextInodeID fs /\
      inodes fs !! nextInodeID fs = None /\
      inodes fs' =
        <[nextInodeID fs := IDir (NewDirInode (nextInodeID fs) name)]>
          (inodes fs) /\
      nextInodeID fs' = nextInodeID fs + 1).

(** ** Directory handles *)

(** Does the call [c], made on [fs], hand out the handle identifier [h]? *)
Definition handsOut (h : Z) (fs : fileSystem) (c : World * request) : bool :=
  match c.2 with
  | OpenDirReq i =>
      match (OpenDir fs i).1 with
      | Returns (Some r) _ => Handle r =? h
      | _ => false
      end
  | _ => false
  end.

(** Does some call of the sequence hand out [h]? *)
Fixpoint reopened (h : Z) (fs : fileSystem) (cs : list (World * request))
  : bool :=
  match cs with
  | [] => false
  | c :: cs' => handsOut h fs c || reopened h (step fs c) cs'
  end.

(** ** Sequences that wrap the inode counter *)

(** A family of pairwise different directory names: "/", "d/", "dd/"... *)
Fixpoint nameOf (j : nat) : string :=
  match j with
  | O => "/"
  | S j' => String "d" (nameOf j')
  end.

(** [n] lookups under the root, each of a directory not seen before. *)
Definition manyDirs (n : nat) : list (World * request) :=
  map (fun j => (echoWorld, LookUpInodeReq RootInodeID (nameOf j))) (seq 0 n).

(** ** Which part of the struct a call may touch *)

Definition isInit (c : World * request) : bool :=
  match c.2 with
  | InitReq _ _ => true
  | _ => false
  end.

Definition isHandleCall (c : World * request) : bool :=
  match c.2 with
  | OpenDirReq _ | ReleaseDirHandleReq _ => true
  | _ => false
  end.

(** ** Counting calls *)

(** Is [c] an [OpenDir] that returns when called on [fs]? *)
Definition opens (fs : fileSystem) (c : World * request) : bool :=
  match c.2 with
  | OpenDirReq i =>
      match (OpenDir fs i).1 with
      | Returns _ _ => true
      | Panics => false
      end
  | _ => false
  end.

(** The number of [OpenDir] calls of a sequence that return. *)
Fixpoint opensFrom (fs : fileSystem) (calls : list (World * request)) : Z :=
  match calls with
  | [] => 0
  | c :: calls' => (if opens fs c then 1 else 0) + opensFrom (step fs c) calls'
  end.

(** The credentials of the last [Init] of a sequence; zero, the value
    the struct literal leaves, before the first. *)
Definition lastInit (calls : list (World * request)) : Z * Z :=
  fold_left
    (fun acc c => match c.2 with InitReq u g => (u, g) | _ => acc end)
    calls (0, 0).

(** ** The invariants written at the fields of the struct *)

(** The INVARIANT comments of [inodes], [nextInodeID], [dirNameIndex],
    [handles] and [nextHandleID], in the order of the source.  That the
    values have one of the two inode types, and that handles are
    [*dirHandle], is in the types of the model. *)
Record Documented (fs : fileSystem) : Prop := {
  doc_key_lo : forall k i, inodes fs !! k = Some i -> RootInodeID <= k;
  doc_id : forall k i, inodes fs !! k = Some i -> ID i = k;
  doc_root : exists d, inodes fs !! RootInodeID = Some (IDir d);
  doc_key_hi : forall k i, inodes fs !! k = Some i -> k < nextInodeID fs;
  doc_index_key : forall n d,
    dirNameIndex fs !! n = Some d -> isDirName n = true;
  doc_index_name : forall n d,
    dirNameIndex fs !! n = Some d -> dirName d = n;
  doc_index_values : forall d,
    (exists n, dirNameIndex fs !! n = Some d) <->
    (exists k, inodes fs !! k = Some (IDir d));
  doc_handle_key : forall h dh,
    handles fs !! h = Some dh -> h < nextHandleID fs
}.

(** What [checkInvariants] tests, check by check. *)
Record Checked (fs : fileSystem) : Prop := {
  chk_keys : forall k i,
    inodes fs !! k = Some i -> RootInodeID <= k < nextInodeID fs;
  chk_root : exists d, inodes fs !! RootInodeID = Some (IDir d);
  chk_id : forall k i, inodes fs !! k = Some i -> ID i = k;
  chk_dir : forall k d,
    inodes fs !! k = Some (IDir d) ->
    isDirName (dirName d) = true /\ dirNameIndex fs !! dirName d = Some d;
  chk_size : size (dirNameIndex fs) = dirsSeen fs;
  chk_handles : forall h dh,
    handles fs !! h = Some dh -> h < nextHandleID fs
}.

(** The names of the directory inodes of the inode table, one per entry. *)
Definition dirNames (fs : fileSystem) : list string :=
  (fun kv : Z * Inode =>
     match kv.2 with IDir d => dirName d | IFile _ => "" end)
  <$> filter (fun kv : Z * Inode => isDir kv.2 = true)
        (map_to_list (inodes fs)).

(** A bucket that answers every request with an error. *)
Definition failingWorld : World :=
  {| LookUpChild := fun _ _ => (None, Some "not found");
     Attributes := fun _ => (zeroAttributes, Some "timeout");
     handleReadDir := fun _ _ => (None, Some "timeout") |}.

(** ** The program *)

Definition isPanic {R : Type} (o : outcome R) : bool :=
  match o with
  | Panics => true
  | Returns _ _ => false
  end.

(** Does the call [c], made on [fs], panic? *)
Definition panics (fs : fileSystem) (c : World * request) : bool :=
  match c.2 with
  | InitReq u g => isPanic (Init fs u g).1
  | LookUpInodeReq p n => isPanic (LookUpInode fs c.1 p n).1
  | GetInodeAttributesReq i => isPanic (GetInodeAttributes fs c.1 i).1
  | OpenDirReq i => isPanic (OpenDir fs i).1
  | ReadDirReq r => isPanic (ReadDir fs c.1 r).1
  | ReleaseDirHandleReq h => isPanic (ReleaseDirHandle fs h).1
  end.

(** Calls are served in turn; the first that panics ends the process,
    and the calls after it are not served.  The result is the struct as
    the last call served left it. *)
Fixpoint exec (fs : fileSystem) (calls : list (World * request))
  : fileSystem :=
  match calls with
  | [] => fs
  | c :: calls' => if panics fs c then step fs c else exec (step fs c) calls'
  end.

Definition program (calls : list (World * request)) : fileSystem :=
  exec NewFileSystem calls.


(** A bucket that holds, for every leaf name asked for, the directory of
    that name: the record's name is the leaf name and a separator. *)
Definition slashWorld : World :=
  {| LookUpChild := fun _ name => (Some (mkObject (name ++ "/")), None);
     Attributes := fun _ => (mkAttrs 4096 493 0 0 0, None);
     handleReadDir := fun _ _ => (Some (mkReadDirResponse []), None) |}.



Local Ltac untouched := split; [by split|cbn; lia].

(** * Properties *)

Example isDirName_ex :
  isDirName "" = true /\ isDirName "logs/" = true /\
  isDirName "file.txt" = false.
Proof. repeat split; reflexivity. Qed.

Example run_ex :
  let fs := run [(echoWorld, InitReq 500 500);
                 (echoWorld, LookUpInodeReq 1 "logs/");
                 (echoWorld, LookUpInodeReq 1 "logs/");
                 (echoWorld, OpenDirReq 2)] in
  checkInvariants fs = true /\ nextInodeID fs = 3 /\
  dirNameIndex fs !! "logs/" = Some (mkDirInode 2 "logs/") /\
  size (dirNameIndex fs) = 2%nat /\ nextHandleID fs = 1.
Proof. vm_compute. repeat split; reflexivity. Qed.
(** ** Directory names *)

Lemma get_last_cons (c : ascii) (u : string) :
  u <> "" ->
  String.get (String.length (String c u) - 1) (String c u)
  = String.get (String.length u - 1) u.
Proof.
  destruct u as [|c' u']; [congruence|]. intros _.
  change (String.length (String c (String c' u')))
    with (S (S (String.length u'))).
  change (String.length (String c' u')) with (S (String.length u')).
  replace (S (S (String.length u')) - 1)%nat with (S (String.length u'))
    by lia.
  replace (S (String.length u') - 1)%nat with (String.length u') by lia.
  reflexivity.
Qed.

Lemma isDirName_cons c u : u <> "" -> isDirName (String c u) = isDirName u.
Proof.
  intros H. unfold isDirName. rewrite (get_last_cons c u H).
  destruct u; [congruence|reflexivity].
Qed.

(** Composing a directory's name with a non-empty leaf name gives a
    directory name exactly when the leaf name is one. *)
Lemma isDirName_app (p n : string) :
  n <> "" -> isDirName (p ++ n) = isDirName n.
Proof.
  intros H. induction p as [|c p IH]; [reflexivity|].
  change (String c p ++ n) with (String c (p ++ n)).
  rewrite isDirName_cons; [exact IH|].
  destruct p; [exact H|discriminate].
Qed.

Lemma isDirName_slash_end (s : string) : isDirName (s ++ "/") = true.
Proof.
  unfold isDirName.
  assert (H : String.get (String.length (s ++ "/") - 1) (s ++ "/")
              = Some "/"%char).
  { induction s as [|c t IH]; [reflexivity|].
    change (String c t ++ "/") with (String c (t ++ "/")).
    rewrite get_last_cons; [exact IH|].
    destruct t; discriminate. }
  rewrite H. apply orb_true_r.
Qed.

(** ** What a call does to the inode tables *)

Lemma lookUpOrCreateDirInode_hit fs o i :
  dirNameIndex fs !! objName o = Some i ->
  lookUpOrCreateDirInode fs o = ((i, None), fs).
Proof. intros H. unfold lookUpOrCreateDirInode. by rewrite H. Qed.

Lemma lookUpOrCreateDirInode_miss fs o :
  dirNameIndex fs !! objName o = None ->
  isDirName (objName o) = true ->
  (lookUpOrCreateDirInode fs o).1
    = (NewDirInode (nextInodeID fs) (objName o), None) /\
  mintedDir (objName o) fs (lookUpOrCreateDirInode fs o).2.
Proof.
  intros H Hd. unfold lookUpOrCreateDirInode, mintedDir. rewrite H. cbn.
  repeat split; auto.
Qed.

(** The state [LookUpInode] leaves: the one of [lookUpOrCreateDirInode]
    when the child record names a directory, the one it started from
    otherwise. *)
Lemma LookUpInode_state fs w p n :
  (LookUpInode fs w p n).2 =
    match inodes fs !! p with
    | Some (IDir parent) =>
        match LookUpChild w parent n with
        | (Some o, None) =>
            if isDirName (objName o)
            then (lookUpOrCreateDirInode fs o).2 else fs
        | _ => fs
        end
    | _ => fs
    end.
Proof.
  unfold LookUpInode.
  destruct (inodes fs !! p) as [[parent|f]|]; try reflexivity.
  destruct (LookUpChild w parent n) as [[o|] [e|]]; try reflexivity.
  destruct (isDirName (objName o)); try reflexivity.
  destruct (lookUpOrCreateDirInode fs o) as [[i [e|]] fs'] eqn:E; reflexivity.
Qed.

Lemma step_inodes fs c :
  sameInodes fs (step fs c) \/
  (exists name, mintedDir name fs (step fs c) /\
     exists p n, c.2 = LookUpInodeReq p n).
Proof.
  destruct c as [w [u g|p n|i|i|r|h]]; unfold step; cbn [fst snd].
  - left. repeat split.
  - rewrite LookUpInode_state.
    destruct (inodes fs !! p) as [[parent|f]|]; try (left; by repeat split).
    destruct (LookUpChild w parent n) as [[o|] [e|]];
      try (left; by repeat split).
    destruct (isDirName (objName o)) eqn:Hd; try (left; by repeat split).
    destruct (dirNameIndex fs !! objName o) as [i|] eqn:Hi.
    + rewrite (lookUpOrCreateDirInode_hit _ _ _ Hi). left. by repeat split.
    + right. exists (objName o). split; [|eauto].
      by apply lookUpOrCreateDirInode_miss.
  - left. unfold GetInodeAttributes.
    destruct (inodes fs !! i) as [[d|f]|]; try by repeat split.
    destruct (getAttributes fs w d) as [a [e|]]; by repeat split.
  - left. unfold OpenDir.
    destruct (getDirForReadingOrDie fs i); by repeat split.
  - left. unfold ReadDir.
    destruct (handles fs !! rdHandle r) as [dh|]; try by repeat split.
    destruct (handleReadDir w dh r); by repeat split.
  - left. unfold ReleaseDirHandle.
    destruct (handles fs !! h); by repeat split.
Qed.

Lemma run_snoc calls c : run (calls ++ [c]) = step (run calls) c.
Proof. unfold run. by rewrite fold_left_app. Qed.

Lemma run_app calls cs : run (calls ++ cs) = fold_left step cs (run calls).
Proof. unfold run. by rewrite fold_left_app. Qed.
(** ** The invariants hold *)

Lemma Sound_new : Sound NewFileSystem.
Proof.
  split; unfold NewFileSystem; cbn [inodes dirNameIndex].
  - intros k i H. apply lookup_insert_Some in H as [[_ <-]|[_ H]]; [done|].
    by rewrite lookup_empty in H.
  - eexists. apply lookup_insert_eq.
  - intros k d H. apply lookup_insert_Some in H as [[_ H]|[_ H]].
    + inversion H. apply lookup_insert_eq.
    + by rewrite lookup_empty in H.
  - intros n d H. apply lookup_insert_Some in H as [[<- <-]|[_ H]]; [done|].
    by rewrite lookup_empty in H.
  - apply lookup_insert_eq.
Qed.

Lemma Sound_same fs fs' : sameInodes fs fs' -> Sound fs -> Sound fs'.
Proof.
  intros (Hi & Hn & Hd) [H1 H2 H3 H4 H5].
  split; rewrite ?Hi, ?Hd; auto.
Qed.

Lemma Sound_minted name fs fs' : mintedDir name fs fs' -> Sound fs -> Sound fs'.
Proof.
  intros (Hdir & Hfresh & Hi & Hn & Hd) [H1 H2 H3 H4 H5].
  split; rewrite ?Hi, ?Hd.
  - intros k i H. apply lookup_insert_Some in H as [[_ <-]|[_ H]]; eauto.
  - destruct (decide (nextInodeID fs = RootInodeID)) as [->|Hne].
    + eexists. apply lookup_insert_eq.
    + destruct H2 as [d H2]. exists d. by rewrite lookup_insert_ne.
  - intros k d H. apply lookup_insert_Some in H as [[_ H]|[_ H]].
    + inversion H. apply lookup_insert_eq.
    + apply H3 in H. rewrite lookup_insert_ne; [done|]. congruence.
  - intros n d H. apply lookup_insert_Some in H as [[<- <-]|[_ H]]; eauto.
  - rewrite lookup_insert_ne; [done|]. congruence.
Qed.

Lemma Sound_step fs c : Sound fs -> Sound (step fs c).
Proof.
  intros H. destruct (step_inodes fs c) as [Hs|(name & Hm & _)].
  - eapply Sound_same; eauto.
  - eapply Sound_minted; eauto.
Qed.

Lemma Sound_steps cs fs : Sound fs -> Sound (fold_left step cs fs).
Proof.
  revert fs. induction cs as [|c cs IH]; intros fs H; [done|].
  cbn [fold_left]. apply IH. by apply Sound_step.
Qed.

Lemma Sound_run calls : Sound (run calls).
Proof. apply Sound_steps, Sound_new. Qed.

(** The name index only grows: an entry, once made, is never replaced. *)
Lemma index_step fs c n d :
  dirNameIndex fs !! n = Some d -> dirNameIndex (step fs c) !! n = Some d.
Proof.
  intros H. destruct (step_inodes fs c) as [(_ & _ & ->)|(name & Hm & _)];
    [done|].
  destruct Hm as (_ & Hfresh & _ & _ & ->).
  rewrite lookup_insert_ne; [done|]. congruence.
Qed.

Lemma index_steps cs fs n d :
  dirNameIndex fs !! n = Some d ->
  dirNameIndex (fold_left step cs fs) !! n = Some d.
Proof.
  revert fs. induction cs as [|c cs IH]; intros fs H; [done|].
  cbn [fold_left]. apply IH. by apply index_step.
Qed.

Lemma incr64_small x : 0 <= x < uint64_modulus - 1 -> incr64 x = x + 1.
Proof. intros H. unfold incr64. apply Z.mod_small. lia. Qed.

Lemma dirsSeen_insert fs fs' k d :
  inodes fs !! k = None ->
  inodes fs' = <[k := IDir d]> (inodes fs) ->
  dirsSeen fs' = S (dirsSeen fs).
Proof.
  intros Hk Hi. unfold dirsSeen. rewrite Hi.
  rewrite (map_to_list_insert _ _ _ Hk).
  rewrite filter_cons_True; [reflexivity|done].
Qed.

Lemma Tight_new : Tight NewFileSystem.
Proof.
  split; unfold NewFileSystem; cbn [inodes dirNameIndex nextInodeID].
  - intros k. unfold RootInodeID. split.
    + intros [i H]. apply lookup_insert_Some in H as [[<- _]|[_ H]]; [lia|].
      by rewrite lookup_empty in H.
    + intros H. assert (k = 1) as -> by lia. eexists. apply lookup_insert_eq.
  - intros k i H. apply lookup_insert_Some in H as [[<- <-]|[_ H]]; [done|].
    by rewrite lookup_empty in H.
  - intros n d H. apply lookup_insert_Some in H as [[_ <-]|[_ H]].
    + apply lookup_insert_eq.
    + by rewrite lookup_empty in H.
  - reflexivity.
  - apply lookup_insert_eq.
  - reflexivity.
Qed.

Lemma Tight_same fs fs' : sameInodes fs fs' -> Tight fs -> Tight fs'.
Proof.
  intros (Hi & Hn & Hd) [H1 H2 H3 H4 H5 H6].
  split; unfold dirsSeen; rewrite ?Hi, ?Hd, ?Hn; auto.
Qed.

Lemma Tight_next_lo fs : Tight fs -> RootInodeID < nextInodeID fs.
Proof.
  intros H. assert (Hr : is_Some (inodes fs !! RootInodeID)).
  { rewrite (tight_root fs H). eauto. }
  apply (tight_keys fs H) in Hr. lia.
Qed.

Lemma Tight_next_fresh fs : Tight fs -> inodes fs !! nextInodeID fs = None.
Proof.
  intros H. apply eq_None_not_Some. intros Hs.
  apply (tight_keys fs H) in Hs. lia.
Qed.

Lemma Tight_minted name fs fs' :
  mintedDir name fs fs' ->
  nextInodeID fs < uint64_modulus - 1 ->
  Tight fs ->
  Tight fs' /\ nextInodeID fs' = nextInodeID fs + 1.
Proof.
  intros (Hdir & Hfresh & Hi & Hn & Hd) Hlt H.
  pose proof (Tight_next_lo fs H) as Hlo.
  pose proof (Tight_next_fresh fs H) as Hnone.
  assert (Hnext : nextInodeID fs' = nextInodeID fs + 1).
  { rewrite Hn. apply incr64_small. unfold RootInodeID in Hlo. lia. }
  split; [|exact Hnext].
  destruct H as [H1 H2 H3 H4 H5 H6].
  split; rewrite ?Hnext.
  - intros k. rewrite Hi, lookup_insert_is_Some, H1. lia.
  - intros k i. rewrite Hi. intros Hk.
    apply lookup_insert_Some in Hk as [[<- <-]|[_ Hk]]; eauto.
  - intros n d. rewrite Hi, Hd. intros Hk.
    apply lookup_insert_Some in Hk as [[_ <-]|[_ Hk]].
    + apply lookup_insert_eq.
    + apply H3 in Hk. rewrite lookup_insert_ne; [done|].
      intros E. rewrite <- E, Hnone in Hk. discriminate.
  - rewrite Hd, (map_size_insert_None _ _ _ Hfresh).
    rewrite (dirsSeen_insert fs fs' _ _ Hnone Hi). by rewrite H4.
  - rewrite Hi, lookup_insert_ne; [done|]. lia.
  - lia.
Qed.

Lemma lookUps_app l1 l2 : lookUps (l1 ++ l2) = lookUps l1 + lookUps l2.
Proof. induction l1 as [|c l1 IH]; cbn [app lookUps]; lia. Qed.

Lemma lookUps_nonneg l : 0 <= lookUps l.
Proof. induction l as [|c l IH]; cbn [lookUps]; [lia|]. destruct (isLookUp c); lia. Qed.

Lemma Tight_step fs c :
  Tight fs ->
  nextInodeID fs < uint64_modulus - 1 ->
  Tight (step fs c) /\
  nextInodeID (step fs c) <= nextInodeID fs + (if isLookUp c then 1 else 0).
Proof.
  intros H Hlt. destruct (step_inodes fs c) as [Hs|(name & Hm & p & n & Hc)].
  - split; [by eapply Tight_same|].
    destruct Hs as (_ & -> & _). destruct (isLookUp c); lia.
  - destruct (Tight_minted _ _ _ Hm Hlt H) as [Ht ->].
    split; [done|]. unfold isLookUp. rewrite Hc. lia.
Qed.

Lemma Tight_run calls :
  lookUps calls < uint64_modulus - 2 ->
  Tight (run calls) /\ nextInodeID (run calls) <= RootInodeID + 1 + lookUps calls.
Proof.
  induction calls as [|c calls IH] using rev_ind; intros Hb.
  - split; [apply Tight_new|]. cbn. unfold RootInodeID. lia.
  - rewrite lookUps_app in Hb |- *. cbn [lookUps] in Hb |- *.
    pose proof (lookUps_nonneg calls) as H0.
    destruct IH as [Ht Hn].
    { destruct (isLookUp c); lia. }
    rewrite run_snoc.
    unfold RootInodeID in *.
    destruct (isLookUp c) eqn:Hc.
    + destruct (Tight_step (run calls) c Ht) as [Ht' Hn']; [lia|].
      rewrite Hc in Hn'. split; [done|lia].
    + destruct (step_inodes (run calls) c) as [Hs|(name & Hm & p & n & Hc')].
      * split; [by eapply Tight_same|]. destruct Hs as (_ & -> & _). lia.
      * unfold isLookUp in Hc. by rewrite Hc' in Hc.
Qed.
(** ** Construction *)

(** C7 (as amended): right after construction the inode table holds the
    root directory under [RootInodeID] and nothing else, the name index
    maps the empty name to that same root and nothing else, the inode
    counter is one past the root identifier, the handle table is empty
    and the handle counter is zero. *)
Theorem NewFileSystem_state :
  let root := NewDirInode RootInodeID "" in
  inodes NewFileSystem = {[RootInodeID := IDir root]} /\
  dirNameIndex NewFileSystem = {["" := root]} /\
  nextInodeID NewFileSystem = RootInodeID + 1 /\
  handles NewFileSystem = ∅ /\
  nextHandleID NewFileSystem = 0.
Proof. repeat split. Qed.

(** C7 (as stated) fails: the handle counter is not one past the root
    identifier; the struct literal leaves it at its zero value. *)
Lemma NewFileSystem_handle_counter_is_not_past_root :
  ~ (inodes NewFileSystem !! RootInodeID
       = Some (IDir (NewDirInode RootInodeID "")) /\
     dirNameIndex NewFileSystem !! ""
       = Some (NewDirInode RootInodeID "") /\
     nextInodeID NewFileSystem = RootInodeID + 1 /\
     nextHandleID NewFileSystem = RootInodeID + 1).
Proof. intros (_ & _ & _ & H). discriminate H. Qed.

(** ** LookUpInode *)

(** Whenever the parent is a live directory and the bucket answers with
    a record that names a directory, the call panics after
    [lookUpOrCreateDirInode] has run. *)
Lemma LookUpInode_dir fs w p n parent o :
  inodes fs !! p = Some (IDir parent) ->
  LookUpChild w parent n = (Some o, None) ->
  isDirName (objName o) = true ->
  LookUpInode fs w p n = (Panics, (lookUpOrCreateDirInode fs o).2).
Proof.
  intros Hp Hl Hd. unfold LookUpInode. rewrite Hp, Hl, Hd.
  unfold lookUpOrCreateDirInode.
  destruct (dirNameIndex fs !! objName o); reflexivity.
Qed.

(** C1 (the code departs from it): a lookup of the directory "logs/"
    under the root of a fresh file system, which the bucket answers with
    a record of that name, does not return: the response is written
    through the nil [resp] and the call panics, the new inode already
    registered. *)
Theorem LookUpInode_directory_panics :
  let r := LookUpInode NewFileSystem echoWorld RootInodeID "logs/" in
  r.1 = Panics /\
  inodes r.2 !! 2 = Some (IDir (NewDirInode 2 "logs/")) /\
  dirNameIndex r.2 !! "logs/" = Some (NewDirInode 2 "logs/") /\
  nextInodeID r.2 = 3.
Proof. vm_compute. repeat split; reflexivity. Qed.

(** C5 (as amended): when the parent is a live directory and the bucket
    answers the lookup with a record whose name is not a directory name,
    [LookUpInode] returns a nil response with the "TODO" error and the
    struct it started from: nothing is minted, no table gains an
    entry. *)
Theorem LookUpInode_file_unimplemented fs w p n parent o :
  inodes fs !! p = Some (IDir parent) ->
  LookUpChild w parent n = (Some o, None) ->
  isDirName (objName o) = false ->
  LookUpInode fs w p n = (Returns None (Some errTODO), fs).
Proof.
  intros Hp Hl Hd. unfold LookUpInode. by rewrite Hp, Hl, Hd.
Qed.

Lemma LookUpInode_file_unimplemented_witness :
  inodes NewFileSystem !! RootInodeID = Some (IDir (NewDirInode RootInodeID "")) /\
  LookUpChild echoWorld (NewDirInode RootInodeID "") "file.txt"
    = (Some (mkObject "file.txt"), None) /\
  isDirName (objName (mkObject "file.txt")) = false /\
  LookUpInode NewFileSystem echoWorld RootInodeID "file.txt"
    = (Returns None (Some errTODO), NewFileSystem).
Proof.
  refine (conj eq_refl (conj eq_refl (conj eq_refl _))).
  apply (LookUpInode_file_unimplemented NewFileSystem echoWorld RootInodeID
           "file.txt" (NewDirInode RootInodeID "") (mkObject "file.txt"));
    reflexivity.
Defined.

(** A lookup that the bucket answers with an error returns that error
    and likewise leaves the struct alone. *)
Lemma LookUpInode_miss fs w p n parent r err :
  inodes fs !! p = Some (IDir parent) ->
  LookUpChild w parent n = (r, Some err) ->
  LookUpInode fs w p n = (Returns None (Some err), fs).
Proof.
  intros Hp Hl. unfold LookUpInode. rewrite Hp, Hl. by destruct r.
Qed.

(** Over a bucket that names the record of a child by composing the
    parent's name with the leaf name asked for, it is the leaf name that
    decides: a non-empty leaf name without a final separator takes the
    file branch. *)
Lemma LookUpInode_file_leaf fs w p n parent o :
  inodes fs !! p = Some (IDir parent) ->
  LookUpChild w parent n = (Some o, None) ->
  objName o = dirName parent ++ n ->
  n <> "" ->
  isDirName n = false ->
  LookUpInode fs w p n = (Returns None (Some errTODO), fs).
Proof.
  intros Hp Hl Hname Hn Hd. unfold LookUpInode.
  by rewrite Hp, Hl, Hname, (isDirName_app _ _ Hn), Hd.
Qed.

(** ** GetInodeAttributes *)

(** C9: for an identifier that is not a key of the inode table the map
    read gives nil, the type switch takes its default branch and the
    call panics; no result pair is returned. *)
Theorem GetInodeAttributes_unknown_panics fs w id :
  inodes fs !! id = None ->
  GetInodeAttributes fs w id = (Panics, fs).
Proof. intros H. unfold GetInodeAttributes. by rewrite H. Qed.

Lemma GetInodeAttributes_unknown_panics_witness :
  inodes NewFileSystem !! 7 = None /\
  GetInodeAttributes NewFileSystem echoWorld 7 = (Panics, NewFileSystem).
Proof.
  split; [reflexivity|].
  apply (GetInodeAttributes_unknown_panics NewFileSystem echoWorld 7).
  reflexivity.
Defined.

(** What [GetInodeAttributes] answers without an error carries the
    owner recorded by [Init]. *)
Lemma GetInodeAttributes_owner fs w id resp fs' :
  GetInodeAttributes fs w id = (Returns (Some resp) None, fs') ->
  Uid (respAttributes resp) = uid fs /\ Gid (respAttributes resp) = gid fs.
Proof.
  unfold GetInodeAttributes, getAttributes.
  destruct (inodes fs !! id) as [[d|f]|]; try discriminate.
  destruct (Attributes w d) as [a [e|]]; [discriminate|].
  intros H. inversion H. split; reflexivity.
Qed.

(** After [Init] with uid 500 and gid 500, over a bucket whose attributes
    are owned by uid 0 and gid 0, [GetInodeAttributes] of the root
    answers with owner 500/500, while [LookUpInode] of "logs/" panics
    before any attribute is produced.  The statements that fill its
    response would, on an allocated response, store the bucket's
    attributes as they are; [LookUpInode] never reaches them with one. *)
Theorem LookUpInode_attributes_not_owned :
  let fs := (Init NewFileSystem 500 500).2 in
  (exists resp,
     (GetInodeAttributes fs echoWorld RootInodeID).1 = Returns (Some resp) None /\
     Uid (respAttributes resp) = 500 /\ Gid (respAttributes resp) = 500) /\
  (LookUpInode fs echoWorld RootInodeID "logs/").1 = Panics /\
  (exists resp,
     fillOutResponse echoWorld
       (Some (mkLookUpInodeResponse (mkEntry 0 zeroAttributes)))
       (lookUpOrCreateDirInode fs (mkObject "logs/")).1.1
     = Returns (Some resp) None /\
     Child (Entry resp) = 2 /\
     Uid (entryAttributes (Entry resp)) = 0 /\
     Gid (entryAttributes (Entry resp)) = 0 /\
     Uid (entryAttributes (Entry resp)) <> uid fs).
Proof.
  cbv zeta. split; [|split].
  - eexists. vm_compute. repeat split; reflexivity.
  - vm_compute. reflexivity.
  - eexists. vm_compute. repeat split; try reflexivity. discriminate.
Qed.
(** ** Directory handles *)






(** ** Only directories *)

Lemma filesSeen_zero fs :
  (forall k i, inodes fs !! k = Some i -> isDir i = true) ->
  filesSeen fs = 0%nat.
Proof.
  intros H. unfold filesSeen.
  assert (Hl : Forall (fun kv : Z * Inode => isDir kv.2 = true)
                 (map_to_list (inodes fs))).
  { apply Forall_forall. intros [k i] Hin.
    apply elem_of_map_to_list in Hin. cbn. eauto. }
  induction Hl as [|[k i] l Hki Hl IH]; [reflexivity|].
  rewrite filter_cons_False; [exact IH|].
  cbn in *. destruct i; [discriminate|discriminate Hki].
Qed.

(** C10: after any sequence of calls every value of the inode table is a
    directory inode; [checkInvariants] therefore counts no file inode,
    and [GetInodeAttributes] of a live identifier does not reach the
    panic of its default branch. *)
Theorem inodes_are_directories calls :
  let fs := run calls in
  (forall k i, inodes fs !! k = Some i -> exists d, i = IDir d) /\
  filesSeen fs = 0%nat /\
  (forall w k, is_Some (inodes fs !! k) ->
     (GetInodeAttributes fs w k).1 <> Panics).
Proof.
  cbv zeta. pose proof (Sound_run calls) as Hs.
  assert (Hd : forall k i, inodes (run calls) !! k = Some i ->
                           exists d, i = IDir d).
  { intros k i H. apply (sound_dirs _ Hs) in H.
    destruct i as [d|f]; [eauto|discriminate]. }
  split; [exact Hd|]. split.
  - apply filesSeen_zero. apply (sound_dirs _ Hs).
  - intros w k [i Hi]. destruct (Hd k i Hi) as [d ->].
    unfold GetInodeAttributes. rewrite Hi.
    destruct (getAttributes (run calls) w d) as [a [e|]]; discriminate.
Qed.

(** ** Deduplication of directories *)

(** What two [LookUpInode] calls for one directory do to the struct, were
    the second one served: take two calls with the same parent and child
    name, both answered by the bucket with a record of the same
    directory name, with any calls in between.  Both resolve to one and
    the same inode [i]: the second finds it in the name index, leaves
    the struct as it found it (so mints nothing), the index maps the
    name to [i], and no other directory of the inode table bears that
    name.  Neither call hands [i] to its caller: see [LookUpInode_dir]. *)
Theorem LookUpInode_twice_one_inode calls w1 w2 p n parent1 parent2 o1 o2 cs :
  let fs := run calls in
  inodes fs !! p = Some (IDir parent1) ->
  LookUpChild w1 parent1 n = (Some o1, None) ->
  isDirName (objName o1) = true ->
  let fs1 := (LookUpInode fs w1 p n).2 in
  let fs2 := fold_left step cs fs1 in
  inodes fs2 !! p = Some (IDir parent2) ->
  LookUpChild w2 parent2 n = (Some o2, None) ->
  objName o2 = objName o1 ->
  exists i,
    (lookUpOrCreateDirInode fs o1).1 = (i, None) /\
    fs1 = (lookUpOrCreateDirInode fs o1).2 /\
    lookUpOrCreateDirInode fs2 o2 = ((i, None), fs2) /\
    (LookUpInode fs2 w2 p n).2 = fs2 /\
    nextInodeID (LookUpInode fs2 w2 p n).2 = nextInodeID fs2 /\
    dirNameIndex fs2 !! objName o1 = Some i /\
    (forall k d, inodes fs2 !! k = Some (IDir d) ->
                 dirName d = objName o1 -> d = i).
Proof.
  intros fs Hp1 Hl1 Hd1 fs1 fs2 Hp2 Hl2 Hname.
  assert (E1 : fs1 = (lookUpOrCreateDirInode fs o1).2).
  { unfold fs1. by rewrite (LookUpInode_dir _ _ _ _ _ _ Hp1 Hl1 Hd1). }
  assert (Hi : exists i, (lookUpOrCreateDirInode fs o1).1 = (i, None) /\
                         dirNameIndex fs1 !! objName o1 = Some i).
  { rewrite E1. unfold lookUpOrCreateDirInode.
    destruct (dirNameIndex fs !! objName o1) as [i|] eqn:Hi.
    - exists i. by split.
    - eexists. split; [reflexivity|]. cbn. apply lookup_insert_eq. }
  destruct Hi as (i & Hres & Hidx). exists i.
  assert (Hidx2 : dirNameIndex fs2 !! objName o2 = Some i).
  { rewrite Hname. by apply index_steps. }
  assert (Hhit : lookUpOrCreateDirInode fs2 o2 = ((i, None), fs2))
    by (by apply lookUpOrCreateDirInode_hit).
  assert (Hst : (LookUpInode fs2 w2 p n).2 = fs2).
  { rewrite (LookUpInode_dir _ _ _ _ _ _ Hp2 Hl2); [by rewrite Hhit|].
    by rewrite Hname. }
  split; [exact Hres|]. split; [exact E1|]. split; [exact Hhit|].
  split; [exact Hst|]. split; [by rewrite Hst|].
  split; [by rewrite <- Hname|].
  intros k d Hk Hd.
  assert (Hs : Sound fs2).
  { apply Sound_steps. unfold fs1.
    change (LookUpInode fs w1 p n).2 with (step fs (w1, LookUpInodeReq p n)).
    apply Sound_step, Sound_run. }
  apply (sound_indexed _ Hs) in Hk. rewrite Hd, <- Hname, Hidx2 in Hk.
  congruence.
Qed.

Lemma LookUpInode_twice_one_inode_witness :
  let fs := run [(echoWorld, InitReq 500 500)] in
  let fs1 := (LookUpInode fs echoWorld RootInodeID "logs/").2 in
  let fs2 := fold_left step [(echoWorld, LookUpInodeReq RootInodeID "tmp/")] fs1 in
  exists i,
    lookUpOrCreateDirInode fs2 (mkObject "logs/") = ((i, None), fs2) /\
    (LookUpInode fs2 echoWorld RootInodeID "logs/").2 = fs2 /\
    dirNameIndex fs2 !! "logs/" = Some i.
Proof.
  intros fs fs1 fs2.
  destruct (LookUpInode_twice_one_inode
              [(echoWorld, InitReq 500 500)] echoWorld echoWorld
              RootInodeID "logs/" (NewDirInode RootInodeID "")
              (NewDirInode RootInodeID "") (mkObject "logs/")
              (mkObject "logs/")
              [(echoWorld, LookUpInodeReq RootInodeID "tmp/")]
              eq_refl eq_refl eq_refl eq_refl eq_refl eq_refl)
    as (i & _ & _ & H1 & H2 & _ & H3 & _).
  exists i. split; [exact H1|]. split; [exact H2|exact H3].
Defined.
(** ** Inode identifiers *)

Lemma Tight_idsDistinct fs : Tight fs -> idsDistinct fs.
Proof.
  intros H k1 k2 i1 i2 H1 H2 E.
  apply (tight_id _ H) in H1, H2. congruence.
Qed.

(** Were every call served, whatever the outcome of the ones before: for
    every sequence of calls with fewer than [2^64 - 2] [LookUpInode]
    calls in it, so that the inode counter has not wrapped around,
    before and after the last call no two live
    inodes share an identifier and the keys of the inode table are
    exactly the identifiers from the root's up to the counter (none is
    below the root's, none reaches the counter); and the last call
    either mints nothing or mints the counter's value, which was no key
    before, and advances the counter by exactly one. *)
Theorem inode_ids_until_wrap calls c :
  lookUps (calls ++ [c]) < uint64_modulus - 2 ->
  let fs := run calls in
  let fs' := run (calls ++ [c]) in
  (idsDistinct fs /\ keysFillRange fs) /\
  (idsDistinct fs' /\ keysFillRange fs') /\
  mintsInOrder fs fs'.
Proof.
  intros Hb fs fs'.
  assert (Hb0 : lookUps calls < uint64_modulus - 2).
  { rewrite lookUps_app in Hb. pose proof (lookUps_nonneg [c]). lia. }
  destruct (Tight_run calls Hb0) as [Ht Hn].
  destruct (Tight_run (calls ++ [c]) Hb) as [Ht' Hn'].
  fold fs in Ht, Hn. fold fs' in Ht', Hn'.
  split; [split; [by apply Tight_idsDistinct|exact (tight_keys _ Ht)]|].
  split; [split; [by apply Tight_idsDistinct|exact (tight_keys _ Ht')]|].
  unfold fs'. rewrite run_snoc. fold fs.
  destruct (step_inodes fs c) as [(Hi & Hx & _)|(name & Hm & p & n & Hc)].
  - left. by split.
  - right. exists name.
    assert (Hlt : nextInodeID fs < uint64_modulus - 1).
    { rewrite lookUps_app in Hb. cbn [lookUps] in Hb.
      unfold isLookUp in Hb. rewrite Hc in Hb. unfold RootInodeID in Hn. lia. }
    destruct (Tight_minted _ _ _ Hm Hlt Ht) as [_ Hnext].
    destruct Hm as (_ & _ & Hi & _ & _).
    split; [by apply Tight_next_lo|]. split; [by apply Tight_next_fresh|].
    by split.
Qed.

Lemma inode_ids_until_wrap_witness :
  let calls := [(echoWorld, InitReq 500 500);
                (echoWorld, LookUpInodeReq RootInodeID "logs/")] in
  let c := (echoWorld, LookUpInodeReq RootInodeID "tmp/") in
  lookUps (calls ++ [c]) < uint64_modulus - 2 /\
  idsDistinct (run (calls ++ [c])) /\
  keysFillRange (run (calls ++ [c])) /\
  mintsInOrder (run calls) (run (calls ++ [c])).
Proof.
  intros calls c.
  assert (H : lookUps (calls ++ [c]) < uint64_modulus - 2) by reflexivity.
  split; [exact H|].
  destruct (inode_ids_until_wrap calls c H) as (_ & [H1 H2] & H3).
  split; [exact H1|]. split; [exact H2|exact H3].
Defined.

(** ** The name index *)

(** Were every call served, whatever the outcome of the ones before: for
    every sequence of calls with fewer than [2^64 - 2] [LookUpInode]
    calls in it, the name index and the
    directory inodes of the inode table are in bijection: the index has
    as many entries as the table has directories, every index entry maps
    a name to a directory of that name which the table holds under its
    own identifier, every directory of the table is the index entry of
    its name, and every inode of the table has its key as identifier. *)
Theorem index_bijection_until_wrap calls :
  lookUps calls < uint64_modulus - 2 ->
  let fs := run calls in
  size (dirNameIndex fs) = dirsSeen fs /\
  (forall n d, dirNameIndex fs !! n = Some d ->
     dirName d = n /\ inodes fs !! dirID d = Some (IDir d)) /\
  (forall k d, inodes fs !! k = Some (IDir d) ->
     dirNameIndex fs !! dirName d = Some d) /\
  (forall k i, inodes fs !! k = Some i -> ID i = k).
Proof.
  intros Hb fs. destruct (Tight_run calls Hb) as [Ht _].
  pose proof (Sound_run calls) as Hs. fold fs in Ht, Hs.
  split; [exact (tight_size _ Ht)|]. split.
  - intros n d H. split.
    + by destruct (sound_name _ Hs _ _ H).
    + exact (tight_index _ Ht _ _ H).
  - split; [exact (sound_indexed _ Hs)|exact (tight_id _ Ht)].
Qed.

Lemma index_bijection_until_wrap_witness :
  let calls := [(echoWorld, InitReq 500 500);
                (echoWorld, LookUpInodeReq RootInodeID "logs/");
                (echoWorld, LookUpInodeReq RootInodeID "logs/");
                (echoWorld, LookUpInodeReq RootInodeID "file.txt")] in
  lookUps calls < uint64_modulus - 2 /\
  size (dirNameIndex (run calls)) = dirsSeen (run calls) /\
  (forall n d, dirNameIndex (run calls) !! n = Some d ->
     dirName d = n /\ inodes (run calls) !! dirID d = Some (IDir d)).
Proof.
  intros calls.
  assert (H : lookUps calls < uint64_modulus - 2) by reflexivity.
  split; [exact H|].
  destruct (index_bijection_until_wrap calls H) as (H1 & H2 & _).
  split; [exact H1|exact H2].
Defined.
(** ** The consistency check *)

Lemma HandlesOK_step fs c :
  HandlesOK fs ->
  nextHandleID fs < uint64_modulus - 1 ->
  HandlesOK (step fs c) /\
  nextHandleID fs <= nextHandleID (step fs c) <= nextHandleID fs + 1.
Proof.
  intros [Hk Hr] Hlt.
  destruct c as [w [u g|p n|i|i|r|h']]; unfold step; cbn [fst snd].
  - untouched.
  - rewrite LookUpInode_state.
    destruct (inodes fs !! p) as [[parent|f]|]; try untouched.
    destruct (LookUpChild w parent n) as [[o|] [e|]];
      try untouched.
    destruct (isDirName (objName o)); try untouched.
    unfold lookUpOrCreateDirInode.
    destruct (dirNameIndex fs !! objName o); untouched.
  - unfold GetInodeAttributes.
    destruct (inodes fs !! i) as [[d|f]|]; try untouched.
    destruct (getAttributes fs w d) as [a [e|]]; untouched.
  - unfold OpenDir.
    destruct (getDirForReadingOrDie fs i); [|untouched].
    cbn. rewrite incr64_small by lia. split; [|lia]. split; cbn; [|lia].
    intros h dh H. apply lookup_insert_Some in H as [[<- _]|[_ H]]; [lia|].
    apply Hk in H. lia.
  - unfold ReadDir.
    destruct (handles fs !! rdHandle r) as [dh|]; [|untouched].
    destruct (handleReadDir w dh r); untouched.
  - unfold ReleaseDirHandle.
    destruct (handles fs !! h'); [|untouched].
    cbn. split; [|lia]. split; cbn; [|lia].
    intros h dh H. apply lookup_delete_Some in H as [_ H]. eauto.
Qed.

Lemma HandlesOK_run calls :
  Z.of_nat (length calls) < uint64_modulus ->
  HandlesOK (run calls) /\ nextHandleID (run calls) <= Z.of_nat (length calls).
Proof.
  induction calls as [|c calls IH] using rev_ind; intros Hb.
  - split; [|cbn; lia]. split; cbn; [|unfold uint64_modulus; lia].
    intros h dh H. by rewrite lookup_empty in H.
  - rewrite length_app in Hb |- *. cbn [length] in Hb |- *.
    destruct IH as [Ho Hn]; [lia|]. rewrite run_snoc.
    destruct (HandlesOK_step (run calls) c Ho) as [Ho' Hn']; [lia|].
    split; [exact Ho'|lia].
Qed.

Lemma lookUps_le_length calls : lookUps calls <= Z.of_nat (length calls).
Proof.
  induction calls as [|c calls IH]; [cbn; lia|].
  cbn [lookUps length]. destruct (isLookUp c); lia.
Qed.

Lemma checkInvariants_holds fs :
  Sound fs -> Tight fs -> HandlesOK fs -> checkInvariants fs = true.
Proof.
  intros Hs Ht Hh. unfold checkInvariants.
  repeat (apply andb_true_intro; split).
  - apply forallb_forall. intros [k i] Hin.
    apply list_elem_of_In, elem_of_map_to_list in Hin.
    assert (Hk : is_Some (inodes fs !! k)) by eauto.
    apply (tight_keys _ Ht) in Hk. unfold inodeKeyOK. cbn [fst].
    apply negb_true_iff, orb_false_intro; [apply Z.ltb_ge|apply Z.leb_gt]; lia.
  - unfold rootIsDir. by rewrite (tight_root _ Ht).
  - apply forallb_forall. intros [k i] Hin.
    apply list_elem_of_In, elem_of_map_to_list in Hin.
    unfold inodeOK. cbn [fst snd]. apply andb_true_intro. split.
    + apply Z.eqb_eq. exact (tight_id _ Ht _ _ Hin).
    + destruct i as [d|f]; [|reflexivity].
      pose proof (sound_indexed _ Hs _ _ Hin) as Hd.
      apply andb_true_intro. split.
      * by destruct (sound_name _ Hs _ _ Hd).
      * by apply bool_decide_eq_true.
  - apply Nat.eqb_eq. exact (tight_size _ Ht).
  - apply forallb_forall. intros [h dh] Hin.
    apply list_elem_of_In, elem_of_map_to_list in Hin.
    apply (handles_keys _ Hh) in Hin. unfold handleKeyOK. cbn [fst].
    apply negb_true_iff, Z.leb_gt. lia.
Qed.

(** X16: [checkInvariants] returns, without a panic, on the struct left
    by any sequence of fewer than [2^64 - 2] calls. *)
Theorem checkInvariants_run calls :
  Z.of_nat (length calls) < uint64_modulus - 2 ->
  checkInvariants (run calls) = true.
Proof.
  intros Hb. pose proof (lookUps_le_length calls) as Hl.
  apply checkInvariants_holds.
  - apply Sound_run.
  - apply Tight_run. lia.
  - apply HandlesOK_run. lia.
Qed.
(** ** Handle identifiers until the handle counter wraps around *)

Lemma steps_no_reopen cs fs h :
  HandlesOK fs ->
  h < nextHandleID fs ->
  nextHandleID fs + Z.of_nat (length cs) < uint64_modulus ->
  reopened h fs cs = false.
Proof.
  revert fs. induction cs as [|c cs IH]; intros fs Ho Hh Hb; [reflexivity|].
  cbn [reopened length] in *. apply orb_false_intro.
  - unfold handsOut. destruct c as [w [u g|p n|i|i|r|h']]; cbn [snd];
      try reflexivity.
    unfold OpenDir. destruct (getDirForReadingOrDie fs i); [|reflexivity].
    cbn. apply Z.eqb_neq. lia.
  - destruct (HandlesOK_step fs c Ho) as [Ho' Hn']; [lia|].
    apply IH; [exact Ho'|lia|lia].
Qed.

(** A released handle identifier is not handed out again as long as the
    calls made before and after the release number fewer than
    [2^64 - 1]. *)
Lemma no_reopen_until_wrap calls h dh cs :
  handles (run calls) !! h = Some dh ->
  Z.of_nat (length calls) + Z.of_nat (length cs) < uint64_modulus - 1 ->
  reopened h (ReleaseDirHandle (run calls) h).2 cs = false.
Proof.
  intros Hh Hb. destruct (HandlesOK_run calls) as [Ho Hn]; [lia|].
  pose proof (handles_keys _ Ho _ _ Hh) as Hk.
  assert (Hnext : nextHandleID (ReleaseDirHandle (run calls) h).2
                  = nextHandleID (run calls)).
  { unfold ReleaseDirHandle. by rewrite Hh. }
  destruct (HandlesOK_step (run calls) (echoWorld, ReleaseDirHandleReq h) Ho)
    as [Ho' _]; [lia|].
  apply steps_no_reopen; [exact Ho'|lia|lia].
Qed.

(** ** When the inode counter wraps around *)

Lemma nameOf_length j : String.length (nameOf j) = S j.
Proof. induction j as [|j IH]; cbn [nameOf String.length]; congruence. Qed.

Lemma nameOf_inj a b : nameOf a = nameOf b -> a = b.
Proof.
  intros H. apply (f_equal String.length) in H.
  rewrite !nameOf_length in H. congruence.
Qed.

Lemma nameOf_nonempty j : nameOf j <> "".
Proof. destruct j; discriminate. Qed.

Lemma nameOf_isDirName j : isDirName (nameOf j) = true.
Proof.
  induction j as [|j IH]; [reflexivity|].
  cbn [nameOf]. rewrite isDirName_cons; [exact IH|apply nameOf_nonempty].
Qed.

Lemma manyDirs_S n :
  manyDirs (S n)
  = (manyDirs n ++ [(echoWorld, LookUpInodeReq RootInodeID (nameOf n))])%list.
Proof. unfold manyDirs. by rewrite seq_S, map_app. Qed.

Lemma manyDirs_state n :
  run (manyDirs (S n))
  = (lookUpOrCreateDirInode (run (manyDirs n)) (mkObject (nameOf n))).2.
Proof.
  rewrite manyDirs_S, run_snoc. unfold step. cbn [fst snd].
  destruct (sound_root_live _ (Sound_run (manyDirs n))) as [d Hd].
  rewrite (LookUpInode_dir _ _ _ _ d (mkObject (nameOf n)) Hd);
    [reflexivity|reflexivity|apply nameOf_isDirName].
Qed.

Lemma manyDirs_fresh n m :
  (n <= m)%nat -> dirNameIndex (run (manyDirs n)) !! nameOf m = None.
Proof.
  revert m. induction n as [|n IH]; intros m Hm.
  - change (run (manyDirs 0)) with NewFileSystem.
    unfold NewFileSystem. cbn [dirNameIndex].
    rewrite lookup_insert_ne; [apply lookup_empty|].
    intros E. symmetry in E. by apply nameOf_nonempty in E.
  - rewrite manyDirs_state. unfold lookUpOrCreateDirInode.
    cbn [objName]. rewrite (IH n); [|lia]. cbn [snd dirNameIndex dirName NewDirInode].
    rewrite lookup_insert_ne; [apply IH; lia|].
    intros E. apply nameOf_inj in E. lia.
Qed.

Lemma manyDirs_minted n :
  mintedDir (nameOf n) (run (manyDirs n)) (run (manyDirs (S n))).
Proof.
  rewrite manyDirs_state.
  apply (lookUpOrCreateDirInode_miss _ (mkObject (nameOf n))).
  - apply manyDirs_fresh. lia.
  - apply nameOf_isDirName.
Qed.

Lemma manyDirs_next n :
  nextInodeID (run (manyDirs n)) = (2 + Z.of_nat n) mod uint64_modulus.
Proof.
  induction n as [|n IH]; [reflexivity|].
  destruct (manyDirs_minted n) as (_ & _ & _ & -> & _).
  rewrite IH. unfold incr64.
  rewrite Z.add_mod_idemp_l by (unfold uint64_modulus; lia).
  f_equal. lia.
Qed.

(** The state after [S n] lookups of fresh directories: the last inode
    sits under the previous value of the counter. *)
Lemma manyDirs_last n :
  let k := (2 + Z.of_nat n) mod uint64_modulus in
  inodes (run (manyDirs (S n))) !! k
  = Some (IDir (NewDirInode k (nameOf n))).
Proof.
  cbv zeta. destruct (manyDirs_minted n) as (_ & _ & -> & _ & _).
  rewrite manyDirs_next. apply lookup_insert_eq.
Qed.

(** What the assumption written at [nextInodeID], that the counter never
    overflows, keeps away.  Were [2^64 - 2] lookups of fresh directories
    all served, a run the program does not have since each of them
    panics, the counter would have wrapped to zero while the table holds
    the key [2^64 - 1]. *)
Lemma inode_ids_wrap :
  let fs := run (manyDirs (S (Z.to_nat (uint64_modulus - 3)))) in
  nextInodeID fs = 0 /\
  is_Some (inodes fs !! (uint64_modulus - 1)) /\
  ~ (forall k i, inodes fs !! k = Some i ->
                 RootInodeID <= k < nextInodeID fs).
Proof.
  assert (HN : Z.of_nat (Z.to_nat (uint64_modulus - 3)) = uint64_modulus - 3).
  { apply Z2Nat.id. unfold uint64_modulus. lia. }
  generalize dependent (Z.to_nat (uint64_modulus - 3)). intros N HN fs.
  assert (Hn : nextInodeID fs = 0).
  { unfold fs. rewrite manyDirs_next, Nat2Z.inj_succ, HN.
    unfold uint64_modulus. reflexivity. }
  assert (Hk : is_Some (inodes fs !! (uint64_modulus - 1))).
  { pose proof (manyDirs_last N) as H. cbv zeta in H. rewrite HN in H.
    change ((2 + (uint64_modulus - 3)) mod uint64_modulus)
      with (uint64_modulus - 1) in H.
    unfold fs. rewrite H. eauto. }
  split; [exact Hn|]. split; [exact Hk|].
  intros H. destruct Hk as [i Hk]. apply H in Hk. rewrite Hn in Hk. lia.
Qed.

(** Likewise, were [2^64] lookups of fresh directories all served, the
    counter would have passed the root identifier a second time: the
    name index would still map the empty name to the root, the inode
    table hold another directory under the root's identifier. *)
Lemma index_bijection_wrap :
  let fs := run (manyDirs (S (Z.to_nat (uint64_modulus - 1)))) in
  let root := NewDirInode RootInodeID "" in
  dirNameIndex fs !! "" = Some root /\
  inodes fs !! dirID root <> Some (IDir root).
Proof.
  assert (HN : Z.of_nat (Z.to_nat (uint64_modulus - 1)) = uint64_modulus - 1).
  { apply Z2Nat.id. unfold uint64_modulus. lia. }
  generalize dependent (Z.to_nat (uint64_modulus - 1)). intros N HN fs root.
  split; [apply (sound_root_name _ (Sound_run _))|].
  pose proof (manyDirs_last N) as H. cbv zeta in H. rewrite HN in H.
  change ((2 + (uint64_modulus - 1)) mod uint64_modulus) with 1 in H.
  change (dirID root) with 1. unfold fs. rewrite H.
  intros E. inversion E as [E']. by apply nameOf_nonempty in E'.
Qed.

(** * Further properties of the methods *)

(** ** isDirName *)

(** X1: [isDirName] accepts exactly the empty name and the names that
    end in the separator. *)
Theorem isDirName_spec (s : string) :
  isDirName s = true <-> s = "" \/ exists t, s = t ++ "/".
Proof.
  split.
  - induction s as [|c u IH]; [by left|]. intros H. right.
    destruct (decide (u = "")) as [->|Hu].
    + exists "". unfold isDirName in H. cbn in H.
      apply Ascii.eqb_eq in H. by rewrite H.
    + rewrite (isDirName_cons c u Hu) in H.
      destruct (IH H) as [E|[t ->]]; [done|]. by exists (String c t).
  - intros [->|[t ->]]; [reflexivity|apply isDirName_slash_end].
Qed.

(** ** Each method keeps to its part of the struct *)

Lemma lookUpOrCreateDirInode_rest fs o :
  let fs' := (lookUpOrCreateDirInode fs o).2 in
  handles fs' = handles fs /\ nextHandleID fs' = nextHandleID fs /\
  uid fs' = uid fs /\ gid fs' = gid fs.
Proof.
  cbv zeta. unfold lookUpOrCreateDirInode.
  destruct (dirNameIndex fs !! objName o); by repeat split.
Qed.

Lemma step_frame fs c :
  (isLookUp c = false -> sameInodes fs (step fs c)) /\
  (isHandleCall c = false ->
     handles (step fs c) = handles fs /\
     nextHandleID (step fs c) = nextHandleID fs) /\
  (isInit c = false -> uid (step fs c) = uid fs /\ gid (step fs c) = gid fs).
Proof.
  destruct c as [w [u g|p n|i|i|r|h]];
    unfold step, isLookUp, isHandleCall, isInit; cbn [fst snd].
  - by repeat split.
  - split; [discriminate|]. rewrite LookUpInode_state.
    destruct (inodes fs !! p) as [[parent|f]|]; try by repeat split.
    destruct (LookUpChild w parent n) as [[o|] [e|]]; try by repeat split.
    destruct (isDirName (objName o)); try by repeat split.
    destruct (lookUpOrCreateDirInode_rest fs o) as (H1 & H2 & H3 & H4).
    by repeat split.
  - unfold GetInodeAttributes.
    destruct (inodes fs !! i) as [[d|f]|]; try by repeat split.
    destruct (getAttributes fs w d) as [a [e|]]; by repeat split.
  - unfold OpenDir. destruct (getDirForReadingOrDie fs i); by repeat split.
  - unfold ReadDir.
    destruct (handles fs !! rdHandle r) as [dh|]; try by repeat split.
    destruct (handleReadDir w dh r); by repeat split.
  - unfold ReleaseDirHandle. destruct (handles fs !! h); by repeat split.
Qed.

(** X2: whatever its outcome, a call that is not [LookUpInode] leaves the
    inode table, the inode counter and the name index as they were; a
    call that is neither [OpenDir] nor [ReleaseDirHandle] leaves the
    handle table and the handle counter; a call that is not [Init]
    leaves the owner. *)
Theorem methods_keep_to_their_part fs c :
  (isLookUp c = false ->
     inodes (step fs c) = inodes fs /\
     nextInodeID (step fs c) = nextInodeID fs /\
     dirNameIndex (step fs c) = dirNameIndex fs) /\
  (isHandleCall c = false ->
     handles (step fs c) = handles fs /\
     nextHandleID (step fs c) = nextHandleID fs) /\
  (isInit c = false -> uid (step fs c) = uid fs /\ gid (step fs c) = gid fs).
Proof. exact (step_frame fs c). Qed.

(** X3: a call that fails leaves no partial change.  [LookUpInode] that
    returns an error, [OpenDir] and [ReleaseDirHandle] that panic, hand
    back the struct they were given; [GetInodeAttributes] and [ReadDir],
    which only take the read lock, hand it back whatever happens. *)
Theorem failed_calls_change_nothing fs :
  (forall w p n r e,
     (LookUpInode fs w p n).1 = Returns r (Some e) ->
     (LookUpInode fs w p n).2 = fs) /\
  (forall w id, (GetInodeAttributes fs w id).2 = fs) /\
  (forall w req, (ReadDir fs w req).2 = fs) /\
  (forall id, (OpenDir fs id).1 = Panics -> (OpenDir fs id).2 = fs) /\
  (forall h,
     (ReleaseDirHandle fs h).1 = Panics -> (ReleaseDirHandle fs h).2 = fs).
Proof.
  repeat split.
  - intros w p n r e. unfold LookUpInode.
    destruct (inodes fs !! p) as [[parent|f]|]; try reflexivity.
    destruct (LookUpChild w parent n) as [[o|] [e'|]]; try reflexivity.
    destruct (isDirName (objName o)); try reflexivity.
    unfold lookUpOrCreateDirInode.
    destruct (dirNameIndex fs !! objName o); cbn; discriminate.
  - intros w id. unfold GetInodeAttributes.
    destruct (inodes fs !! id) as [[d|f]|]; try reflexivity.
    destruct (getAttributes fs w d) as [a [e|]]; reflexivity.
  - intros w req. unfold ReadDir.
    destruct (handles fs !! rdHandle req) as [dh|]; try reflexivity.
    destruct (handleReadDir w dh req); reflexivity.
  - intros id. unfold OpenDir.
    destruct (getDirForReadingOrDie fs id); [discriminate|reflexivity].
  - intros h. unfold ReleaseDirHandle.
    destruct (handles fs !! h); [discriminate|reflexivity].
Qed.

(** ** OpenDir *)

(** X4: [OpenDir] of a live directory returns the value of the handle
    counter as the handle, stores under it a handle on that directory,
    leaves every other handle, the inode tables and the owner alone and
    increments the counter (modulo [2^64]); a [ReadDir] of the new
    handle is then answered by the handle. *)
Theorem OpenDir_live fs id d :
  inodes fs !! id = Some (IDir d) ->
  let h := nextHandleID fs in
  let fs' := (OpenDir fs id).2 in
  (OpenDir fs id).1 = Returns (Some (mkOpenDirResponse h)) None /\
  handles fs' !! h = Some (newDirHandle d) /\
  (forall h', h' <> h -> handles fs' !! h' = handles fs !! h') /\
  nextHandleID fs' = incr64 h /\
  (inodes fs' = inodes fs /\ nextInodeID fs' = nextInodeID fs /\
   dirNameIndex fs' = dirNameIndex fs /\ uid fs' = uid fs /\ gid fs' = gid fs) /\
  (forall w req, rdHandle req = h ->
     ReadDir fs' w req
     = (Returns (handleReadDir w (newDirHandle d) req).1
                (handleReadDir w (newDirHandle d) req).2, fs')).
Proof.
  intros Hd. unfold OpenDir, getDirForReadingOrDie. rewrite Hd. cbn.
  split; [reflexivity|]. split; [apply lookup_insert_eq|].
  split; [intros h' Hne; by rewrite lookup_insert_ne|].
  split; [reflexivity|]. split; [by repeat split|].
  intros w req Hr. unfold ReadDir. rewrite Hr. cbn.
  rewrite lookup_insert_eq.
  by destruct (handleReadDir w (newDirHandle d) req).
Qed.

Lemma OpenDir_live_witness :
  inodes NewFileSystem !! RootInodeID = Some (IDir (NewDirInode RootInodeID "")) /\
  (OpenDir NewFileSystem RootInodeID).1
    = Returns (Some (mkOpenDirResponse 0)) None /\
  handles (OpenDir NewFileSystem RootInodeID).2 !! 0
    = Some (newDirHandle (NewDirInode RootInodeID "")).
Proof.
  refine (conj eq_refl _).
  destruct (OpenDir_live NewFileSystem RootInodeID
              (NewDirInode RootInodeID "") eq_refl) as (H1 & H2 & _).
  exact (conj H1 H2).
Defined.

(** X5: after any sequence of calls [OpenDir] panics exactly for the
    identifiers that are not keys of the inode table. *)
Theorem OpenDir_panics_iff_unknown calls id :
  (OpenDir (run calls) id).1 = Panics <-> inodes (run calls) !! id = None.
Proof.
  pose proof (sound_dirs _ (Sound_run calls)) as Hs.
  unfold OpenDir, getDirForReadingOrDie.
  destruct (inodes (run calls) !! id) as [[d|f]|] eqn:E; cbn.
  - split; discriminate.
  - apply Hs in E. discriminate E.
  - split; reflexivity.
Qed.

(** ** The handle counter *)

Lemma step_nextHandleID fs c :
  nextHandleID (step fs c)
  = if opens fs c then incr64 (nextHandleID fs) else nextHandleID fs.
Proof.
  destruct (isHandleCall c) eqn:Hc.
  - destruct c as [w [u g|p n|i|i|r|h]]; try discriminate Hc;
      unfold step, opens; cbn [fst snd].
    + unfold OpenDir. by destruct (getDirForReadingOrDie fs i).
    + unfold ReleaseDirHandle. by destruct (handles fs !! h).
  - destruct (step_frame fs c) as (_ & H & _). destruct (H Hc) as [_ ->].
    unfold opens. destruct c as [w [u g|p n|i|i|r|h]]; try reflexivity;
      discriminate Hc.
Qed.

Lemma steps_nextHandleID cs fs :
  0 <= nextHandleID fs < uint64_modulus ->
  nextHandleID (fold_left step cs fs)
  = (nextHandleID fs + opensFrom fs cs) mod uint64_modulus.
Proof.
  revert fs. induction cs as [|c cs IH]; intros fs Hr.
  - cbn. rewrite Z.add_0_r. symmetry. by apply Z.mod_small.
  - cbn [fold_left opensFrom]. rewrite IH, step_nextHandleID.
    + destruct (opens fs c).
      * unfold incr64. rewrite Z.add_mod_idemp_l by done.
        f_equal. lia.
      * f_equal.
    + rewrite step_nextHandleID. destruct (opens fs c); [|exact Hr].
      apply Z.mod_pos_bound. reflexivity.
Qed.

(** X6: after any sequence of calls the handle counter is the number of
    [OpenDir] calls that returned, modulo [2^64]: it starts at zero and
    nothing else moves it, a release included. *)
Theorem handle_counter_counts_opens calls :
  nextHandleID (run calls)
  = opensFrom NewFileSystem calls mod uint64_modulus.
Proof.
  unfold run. rewrite steps_nextHandleID; [reflexivity|].
  cbn. unfold uint64_modulus. lia.
Qed.

(** X7: as long as fewer than [2^64] calls have been made, the handle
    counter is no key of the handle table, so the handle that [OpenDir]
    hands out is a new one and every handle that was live stays live,
    unchanged. *)
Theorem OpenDir_hands_out_fresh calls id :
  Z.of_nat (length calls) < uint64_modulus ->
  handles (run calls) !! nextHandleID (run calls) = None /\
  (forall h dh,
     handles (run calls) !! h = Some dh ->
     h <> nextHandleID (run calls) /\
     handles (OpenDir (run calls) id).2 !! h = Some dh).
Proof.
  intros Hb. destruct (HandlesOK_run calls Hb) as [Ho _].
  assert (Hfresh : handles (run calls) !! nextHandleID (run calls) = None).
  { apply eq_None_not_Some. intros [dh H].
    apply (handles_keys _ Ho) in H. lia. }
  split; [exact Hfresh|]. intros h dh H.
  assert (Hne : h <> nextHandleID (run calls)).
  { intros ->. rewrite Hfresh in H. discriminate. }
  split; [exact Hne|]. unfold OpenDir.
  destruct (getDirForReadingOrDie (run calls) id); [|exact H].
  cbn. rewrite lookup_insert_ne; [exact H|congruence].
Qed.

Lemma OpenDir_hands_out_fresh_witness :
  let calls := [(echoWorld, OpenDirReq RootInodeID);
                (echoWorld, OpenDirReq RootInodeID);
                (echoWorld, ReleaseDirHandleReq 0)] in
  Z.of_nat (length calls) < uint64_modulus /\
  handles (run calls) !! nextHandleID (run calls) = None.
Proof.
  intros calls.
  assert (H : Z.of_nat (length calls) < uint64_modulus) by reflexivity.
  split; [exact H|].
  exact (proj1 (OpenDir_hands_out_fresh calls RootInodeID H)).
Defined.

(** ** The inode counter *)

(** X8: after any sequence of calls the inode counter is the root
    identifier plus the number of entries of the name index, modulo
    [2^64]: every mint adds one name to the index and nothing ever
    removes one. *)
Theorem inode_counter_counts_directories calls :
  nextInodeID (run calls)
  = (RootInodeID + Z.of_nat (size (dirNameIndex (run calls))))
      mod uint64_modulus.
Proof.
  induction calls as [|c calls IH] using rev_ind.
  - change (run []) with NewFileSystem. unfold NewFileSystem.
    cbn [nextInodeID dirNameIndex].
    rewrite map_size_insert_None by apply lookup_empty.
    rewrite map_size_empty. reflexivity.
  - rewrite run_snoc.
    destruct (step_inodes (run calls) c)
      as [(_ & -> & ->)|(name & (_ & Hf & _ & -> & ->) & _)]; [exact IH|].
    rewrite (map_size_insert_None _ _ _ Hf), IH. unfold incr64.
    rewrite Z.add_mod_idemp_l by done. f_equal. lia.
Qed.

(** ** The owner *)

Lemma owner_run calls :
  (uid (run calls), gid (run calls)) = lastInit calls.
Proof.
  induction calls as [|c calls IH] using rev_ind; [reflexivity|].
  rewrite run_snoc. unfold lastInit in *. rewrite fold_left_app.
  cbn [fold_left]. rewrite <- IH.
  destruct (isInit c) eqn:Hc.
  - destruct c as [w [u g|p n|i|i|r|h]]; try discriminate Hc. reflexivity.
  - destruct (step_frame (run calls) c) as (_ & _ & H).
    destruct (H Hc) as [-> ->].
    destruct c as [w [u g|p n|i|i|r|h]]; try reflexivity. discriminate Hc.
Qed.

(** X9: the attributes that [GetInodeAttributes] returns for a live
    directory, when the bucket answers without an error, are the
    bucket's with the owner replaced by the credentials of the last
    [Init] of the sequence (zero if there was none); the struct is left
    as it was. *)
Theorem GetInodeAttributes_owner_of_last_Init calls w id d a :
  inodes (run calls) !! id = Some (IDir d) ->
  Attributes w d = (a, None) ->
  GetInodeAttributes (run calls) w id
  = (Returns
       (Some (mkGetInodeAttributesResponse
                (mkAttrs (Size a) (Mode a) (Mtime a)
                   (lastInit calls).1 (lastInit calls).2)))
       None,
     run calls).
Proof.
  intros Hd Ha. unfold GetInodeAttributes, getAttributes.
  rewrite Hd, Ha, <- owner_run. reflexivity.
Qed.

Lemma GetInodeAttributes_owner_of_last_Init_witness :
  let calls := [(echoWorld, InitReq 1 1);
                (echoWorld, LookUpInodeReq RootInodeID "logs/");
                (echoWorld, InitReq 500 20);
                (echoWorld, OpenDirReq 2)] in
  inodes (run calls) !! 2 = Some (IDir (NewDirInode 2 "logs/")) /\
  GetInodeAttributes (run calls) echoWorld 2
  = (Returns (Some (mkGetInodeAttributesResponse (mkAttrs 4096 493 0 500 20)))
       None, run calls).
Proof.
  intros calls. refine (conj eq_refl _).
  exact (GetInodeAttributes_owner_of_last_Init calls echoWorld 2
           (NewDirInode 2 "logs/") (mkAttrs 4096 493 0 0 0) eq_refl eq_refl).
Defined.

(** X10: when the bucket fails to give the attributes of a live
    directory, [GetInodeAttributes] returns that error behind the prefix
    "DirInode.Attributes: ", with a response whose attributes are what
    the bucket handed back, the owner not filled in; the struct is left
    as it was. *)
Theorem GetInodeAttributes_error fs w id d a e :
  inodes fs !! id = Some (IDir d) ->
  Attributes w d = (a, Some e) ->
  GetInodeAttributes fs w id
  = (Returns (Some (mkGetInodeAttributesResponse a))
       (Some ("DirInode.Attributes: " ++ e)), fs).
Proof.
  intros Hd Ha. unfold GetInodeAttributes, getAttributes.
  by rewrite Hd, Ha.
Qed.

Lemma GetInodeAttributes_error_witness :
  inodes NewFileSystem !! RootInodeID = Some (IDir (NewDirInode RootInodeID "")) /\
  GetInodeAttributes NewFileSystem failingWorld RootInodeID
  = (Returns (Some (mkGetInodeAttributesResponse zeroAttributes))
       (Some "DirInode.Attributes: timeout"), NewFileSystem).
Proof.
  refine (conj eq_refl _).
  exact (GetInodeAttributes_error NewFileSystem failingWorld RootInodeID
           (NewDirInode RootInodeID "") zeroAttributes "timeout"
           eq_refl eq_refl).
Defined.

(** ** ReleaseDirHandle *)

(** X11: a handle can be released once: the second [ReleaseDirHandle] of
    the same identifier panics and leaves the struct as the first one
    left it. *)
Theorem ReleaseDirHandle_twice fs h dh :
  handles fs !! h = Some dh ->
  let fs' := (ReleaseDirHandle fs h).2 in
  handles fs' !! h = None /\
  ReleaseDirHandle fs' h = (Panics, fs').
Proof.
  intros Hh. unfold ReleaseDirHandle at 1 2. rewrite Hh. cbn [snd].
  assert (Hn : handles
                 {| uid := uid fs; gid := gid fs; inodes := inodes fs;
                    nextInodeID := nextInodeID fs;
                    dirNameIndex := dirNameIndex fs;
                    handles := delete h (handles fs);
                    nextHandleID := nextHandleID fs |} !! h = None)
    by apply lookup_delete_eq.
  split; [exact Hn|]. unfold ReleaseDirHandle. by rewrite Hn.
Qed.

Lemma ReleaseDirHandle_twice_witness :
  let fs := run [(echoWorld, OpenDirReq RootInodeID)] in
  handles fs !! 0 = Some (newDirHandle (NewDirInode RootInodeID "")) /\
  ReleaseDirHandle (ReleaseDirHandle fs 0).2 0
  = (Panics, (ReleaseDirHandle fs 0).2).
Proof.
  intros fs. refine (conj eq_refl _).
  exact (proj2 (ReleaseDirHandle_twice fs 0 _ eq_refl)).
Defined.

(** ** Nothing is ever forgotten *)

Lemma inode_key_step fs c k :
  is_Some (inodes fs !! k) -> is_Some (inodes (step fs c) !! k).
Proof.
  intros H. destruct (step_inodes fs c)
    as [(-> & _ & _)|(name & (_ & _ & -> & _ & _) & _)]; [exact H|].
  apply lookup_insert_is_Some'. by right.
Qed.

Lemma inode_key_steps cs fs k :
  is_Some (inodes fs !! k) -> is_Some (inodes (fold_left step cs fs) !! k).
Proof.
  revert fs. induction cs as [|c cs IH]; intros fs H; [exact H|].
  cbn [fold_left]. apply IH. by apply inode_key_step.
Qed.

(** X12: there is no way to forget a directory.  Once the name index
    maps a name to an inode it maps that name to that inode after any
    further calls, so the name is never given a second identifier; and
    an identifier that is a key of the inode table stays one. *)
Theorem directories_are_never_forgotten calls cs n d :
  dirNameIndex (run calls) !! n = Some d ->
  dirNameIndex (run (calls ++ cs)) !! n = Some d /\
  (forall k, is_Some (inodes (run calls) !! k) ->
             is_Some (inodes (run (calls ++ cs)) !! k)) /\
  (size (dirNameIndex (run calls)) <= size (dirNameIndex (run (calls ++ cs))))%nat.
Proof.
  intros H. rewrite run_app. split; [by apply index_steps|].
  split; [intros k; apply inode_key_steps|].
  apply map_subseteq_size, map_subseteq_spec.
  intros n' d'. apply index_steps.
Qed.

Lemma directories_are_never_forgotten_witness :
  let calls := [(echoWorld, LookUpInodeReq RootInodeID "logs/")] in
  let cs := [(echoWorld, LookUpInodeReq RootInodeID "tmp/");
             (echoWorld, LookUpInodeReq RootInodeID "logs/")] in
  dirNameIndex (run calls) !! "logs/" = Some (NewDirInode 2 "logs/") /\
  dirNameIndex (run (calls ++ cs)) !! "logs/" = Some (NewDirInode 2 "logs/").
Proof.
  intros calls cs. refine (conj eq_refl _).
  exact (proj1 (directories_are_never_forgotten calls cs "logs/"
                  (NewDirInode 2 "logs/") eq_refl)).
Defined.

(** ** Handles and their directories *)

Lemma handle_dir_step fs c :
  Sound fs ->
  (forall h dh, handles fs !! h = Some dh ->
     dirNameIndex fs !! dirName (handleDir dh) = Some (handleDir dh)) ->
  forall h dh, handles (step fs c) !! h = Some dh ->
    dirNameIndex (step fs c) !! dirName (handleDir dh) = Some (handleDir dh).
Proof.
  intros Hs Hinv h dh H.
  destruct (isHandleCall c) eqn:Hc.
  - destruct c as [w [u g|p n|i|i|r|h']]; try discriminate Hc;
      unfold step in *; cbn [fst snd] in *.
    + unfold OpenDir, getDirForReadingOrDie in *.
      destruct (inodes fs !! i) as [[d|f]|] eqn:Hi; cbn in *; eauto.
      apply lookup_insert_Some in H as [[_ <-]|[_ H]]; eauto.
      cbn. exact (sound_indexed _ Hs _ _ Hi).
    + unfold ReleaseDirHandle in *.
      destruct (handles fs !! h'); cbn in *; eauto.
      apply lookup_delete_Some in H as [_ H]. eauto.
  - destruct (step_frame fs c) as (_ & Hf & _). destruct (Hf Hc) as [Hh _].
    rewrite Hh in H. apply index_step. eauto.
Qed.

(** X13: after any sequence of calls every live handle is a handle on a
    directory that the name index holds under its own name: [OpenDir]
    takes the directory from the inode table, and no later call drops
    it from the index. *)
Theorem handles_are_on_known_directories calls h dh :
  handles (run calls) !! h = Some dh ->
  dirNameIndex (run calls) !! dirName (handleDir dh) = Some (handleDir dh).
Proof.
  revert h dh. induction calls as [|c calls IH] using rev_ind.
  - intros h dh H. change (handles (run [])) with (∅ : gmap Z dirHandle) in H.
    by rewrite lookup_empty in H.
  - rewrite run_snoc. apply handle_dir_step; [apply Sound_run|exact IH].
Qed.

Lemma handles_are_on_known_directories_witness :
  let calls := [(echoWorld, LookUpInodeReq RootInodeID "logs/");
                (echoWorld, OpenDirReq 2);
                (echoWorld, LookUpInodeReq RootInodeID "tmp/")] in
  handles (run calls) !! 0 = Some (newDirHandle (NewDirInode 2 "logs/")) /\
  dirNameIndex (run calls) !! "logs/" = Some (NewDirInode 2 "logs/").
Proof.
  intros calls. refine (conj eq_refl _).
  exact (handles_are_on_known_directories calls 0
           (newDirHandle (NewDirInode 2 "logs/")) eq_refl).
Defined.

(** ** lookUpOrCreateDirInode *)

(** X14: called after any sequence of calls, [lookUpOrCreateDirInode]
    never returns an error; the inode it returns bears the name of the
    object record and is, after the call, the entry of the name index
    for that name; and the call changes the struct exactly when the name
    was not in the index before. *)
Theorem lookUpOrCreateDirInode_post calls o :
  let fs := run calls in
  let r := lookUpOrCreateDirInode fs o in
  r.1.2 = None /\
  dirName r.1.1 = objName o /\
  dirNameIndex r.2 !! objName o = Some r.1.1 /\
  (r.2 = fs <-> is_Some (dirNameIndex fs !! objName o)).
Proof.
  cbv zeta. pose proof (Sound_run calls) as Hs.
  unfold lookUpOrCreateDirInode.
  destruct (dirNameIndex (run calls) !! objName o) as [i|] eqn:Hi; cbn.
  - split; [reflexivity|]. split; [by destruct (sound_name _ Hs _ _ Hi)|].
    split; [exact Hi|]. split; eauto.
  - split; [reflexivity|]. split; [reflexivity|].
    split; [apply lookup_insert_eq|]. split.
    + intros E. apply (f_equal dirNameIndex) in E. cbn in E.
      rewrite <- E, lookup_insert_eq in Hi. discriminate.
    + intros [x Hx]. discriminate.
Qed.

(** ** What the consistency check establishes *)

Lemma checkInvariants_Checked fs : checkInvariants fs = true <-> Checked fs.
Proof.
  unfold checkInvariants. rewrite !andb_true_iff, !forallb_forall. split.
  - intros ((((Hk & Hr) & Hi) & Hsz) & Hh). split.
    + intros k i H. apply elem_of_map_to_list, list_elem_of_In, Hk in H.
      unfold inodeKeyOK in H. cbn [fst] in H.
      apply negb_true_iff, orb_false_elim in H as [H1 H2].
      apply Z.ltb_ge in H1. apply Z.leb_gt in H2. lia.
    + unfold rootIsDir in Hr.
      destruct (inodes fs !! RootInodeID) as [[d|f]|]; try discriminate.
      eauto.
    + intros k i H. apply elem_of_map_to_list, list_elem_of_In, Hi in H.
      unfold inodeOK in H. cbn [fst snd] in H.
      apply andb_true_iff in H as [H _]. by apply Z.eqb_eq.
    + intros k d H. apply elem_of_map_to_list, list_elem_of_In, Hi in H.
      unfold inodeOK in H. cbn [fst snd] in H.
      apply andb_true_iff in H as [_ H]. apply andb_true_iff in H as [H1 H2].
      apply bool_decide_eq_true in H2. by split.
    + by apply Nat.eqb_eq.
    + intros h dh H. apply elem_of_map_to_list, list_elem_of_In, Hh in H.
      unfold handleKeyOK in H. cbn [fst] in H.
      by apply negb_true_iff, Z.leb_gt in H.
  - intros [Hk Hr Hi Hd Hsz Hh]. repeat split.
    + intros [k i] H. apply list_elem_of_In, elem_of_map_to_list, Hk in H.
      unfold inodeKeyOK. cbn [fst].
      apply negb_true_iff, orb_false_intro; [apply Z.ltb_ge|apply Z.leb_gt];
        lia.
    + unfold rootIsDir. destruct Hr as [d ->]. reflexivity.
    + intros [k i] H. apply list_elem_of_In, elem_of_map_to_list in H.
      unfold inodeOK. cbn [fst snd]. apply andb_true_iff. split.
      * apply Z.eqb_eq. eauto.
      * destruct i as [d|f]; [|reflexivity].
        destruct (Hd _ _ H) as [H1 H2]. apply andb_true_iff.
        split; [exact H1|]. by apply bool_decide_eq_true.
    + by apply Nat.eqb_eq.
    + intros [h dh] H. apply list_elem_of_In, elem_of_map_to_list, Hh in H.
      unfold handleKeyOK. cbn [fst]. by apply negb_true_iff, Z.leb_gt.
Qed.

Lemma elem_of_dirNames fs n :
  n ∈ dirNames fs <->
  exists k d, inodes fs !! k = Some (IDir d) /\ dirName d = n.
Proof.
  unfold dirNames. rewrite list_elem_of_fmap. split.
  - intros [[k i] [-> Hin]]. apply list_elem_of_filter in Hin as [Hd Hin].
    apply elem_of_map_to_list in Hin. cbn in *.
    destruct i as [d|f]; [eauto|discriminate].
  - intros (k & d & H & <-). exists (k, IDir d). split; [reflexivity|].
    apply list_elem_of_filter. split; [reflexivity|].
    by apply elem_of_map_to_list.
Qed.

Lemma dirNames_NoDup fs :
  (forall k i, inodes fs !! k = Some i -> ID i = k) ->
  (forall k d, inodes fs !! k = Some (IDir d) ->
               dirNameIndex fs !! dirName d = Some d) ->
  NoDup (dirNames fs).
Proof.
  intros Hid Hidx. unfold dirNames.
  apply NoDup_fmap_2_strong; [|apply NoDup_filter, NoDup_map_to_list].
  intros [k1 i1] [k2 i2] H1 H2 E.
  apply list_elem_of_filter in H1 as [D1 H1].
  apply list_elem_of_filter in H2 as [D2 H2].
  apply elem_of_map_to_list in H1, H2. cbn in *.
  destruct i1 as [d1|f1]; [|discriminate].
  destruct i2 as [d2|f2]; [|discriminate].
  pose proof (Hidx _ _ H1) as I1. pose proof (Hidx _ _ H2) as I2.
  rewrite E, I2 in I1. inversion I1; subst d2.
  apply Hid in H1, H2. cbn in H1, H2. congruence.
Qed.

Lemma dirNames_size fs :
  (forall k i, inodes fs !! k = Some i -> ID i = k) ->
  (forall k d, inodes fs !! k = Some (IDir d) ->
               dirNameIndex fs !! dirName d = Some d) ->
  size (list_to_set (dirNames fs) : gset string) = dirsSeen fs.
Proof.
  intros Hid Hidx. rewrite size_list_to_set by by apply dirNames_NoDup.
  unfold dirNames, dirsSeen. apply length_fmap.
Qed.

Lemma Checked_index fs n d :
  Checked fs ->
  dirNameIndex fs !! n = Some d ->
  dirName d = n /\ exists k, inodes fs !! k = Some (IDir d).
Proof.
  intros [Hk Hr Hi Hd Hsz Hh] H.
  assert (Hidx : forall k d, inodes fs !! k = Some (IDir d) ->
                             dirNameIndex fs !! dirName d = Some d)
    by (intros k' d' H'; by destruct (Hd _ _ H')).
  assert (Hsub : (list_to_set (dirNames fs) : gset string)
                 ⊆ dom (dirNameIndex fs)).
  { intros x Hx. apply elem_of_list_to_set, elem_of_dirNames in Hx
      as (k & d' & H1 & <-). apply elem_of_dom. rewrite (Hidx _ _ H1). eauto. }
  assert (Heq : (list_to_set (dirNames fs) : gset string)
                = dom (dirNameIndex fs)).
  { apply set_subseteq_size_eq; [exact Hsub|].
    rewrite size_dom, (dirNames_size fs Hi Hidx). lia. }
  assert (Hn : n ∈ (list_to_set (dirNames fs) : gset string)).
  { rewrite Heq. apply elem_of_dom. eauto. }
  apply elem_of_list_to_set, elem_of_dirNames in Hn as (k & d' & H1 & <-).
  rewrite (Hidx _ _ H1) in H. inversion H; subst d'. eauto.
Qed.

(** X15: [checkInvariants] returns without a panic exactly on the
    structs that satisfy the invariants written at the fields of
    [fileSystem].  It checks one direction of the last invariant of
    [dirNameIndex] (every directory inode is its name's index entry) and
    compares the sizes; that the index holds nothing else, and that its
    keys are directory names equal to their inode's name, follows. *)
Theorem checkInvariants_iff_Documented fs :
  checkInvariants fs = true <-> Documented fs.
Proof.
  rewrite checkInvariants_Checked. split.
  - intros Hc. pose proof Hc as [Hk Hr Hi Hd Hsz Hh]. split.
    + intros k i H. apply Hk in H. lia.
    + exact Hi.
    + exact Hr.
    + intros k i H. apply Hk in H. lia.
    + intros n d H. destruct (Checked_index fs n d Hc H) as [<- [k Hin]].
      by destruct (Hd _ _ Hin).
    + intros n d H. by destruct (Checked_index fs n d Hc H).
    + intros d. split.
      * intros [n H]. by destruct (Checked_index fs n d Hc H).
      * intros [k H]. exists (dirName d). by destruct (Hd _ _ H).
    + exact Hh.
  - intros [Hlo Hid Hr Hhi Hkey Hname Hval Hh].
    assert (Hidx : forall k d, inodes fs !! k = Some (IDir d) ->
                               dirNameIndex fs !! dirName d = Some d).
    { intros k d H. destruct (proj2 (Hval d)) as [n Hn]; [eauto|].
      by rewrite (Hname _ _ Hn). }
    split.
    + intros k i H. split; eauto.
    + exact Hr.
    + exact Hid.
    + intros k d H. pose proof (Hidx _ _ H) as Hn. split; eauto.
    + rewrite <- (dirNames_size fs Hid Hidx), <- (size_dom (D := gset string)).
      f_equal. apply set_eq. intros n.
      rewrite elem_of_dom, elem_of_list_to_set, elem_of_dirNames. split.
      * intros [d H]. destruct (proj1 (Hval d)) as [k Hk]; [eauto|].
        exists k, d. split; [exact Hk|]. eauto.
      * intros (k & d & H & <-). rewrite (Hidx _ _ H). eauto.
    + exact Hh.
Qed.

Lemma checkInvariants_run_witness :
  let calls := [(echoWorld, InitReq 500 500);
                (echoWorld, LookUpInodeReq RootInodeID "logs/");
                (echoWorld, OpenDirReq 2);
                (failingWorld, LookUpInodeReq RootInodeID "tmp/");
                (echoWorld, ReleaseDirHandleReq 0)] in
  Z.of_nat (length calls) < uint64_modulus - 2 /\
  checkInvariants (run calls) = true.
Proof.
  intros calls.
  assert (H : Z.of_nat (length calls) < uint64_modulus - 2) by reflexivity.
  exact (conj H (checkInvariants_run calls H)).
Defined.

(** ** What LookUpInode never does *)

(** X17: no call of [LookUpInode] hands a response to its caller: it
    either returns a nil response together with an error, or panics. *)
Theorem LookUpInode_never_answers fs w p n :
  (exists e, (LookUpInode fs w p n).1 = Returns None (Some e)) \/
  (LookUpInode fs w p n).1 = Panics.
Proof.
  unfold LookUpInode.
  destruct (inodes fs !! p) as [[parent|f]|]; try by right.
  destruct (LookUpChild w parent n) as [[o|] [e|]]; try (by right);
    try (left; by eexists).
  destruct (isDirName (objName o)); [|left; by eexists].
  unfold lookUpOrCreateDirInode.
  destruct (dirNameIndex fs !! objName o); by right.
Qed.

(** ** Handle identifiers not handed out yet *)

(** X18: as long as fewer than [2^64] calls have been made, an
    identifier at or above the handle counter is no handle: [ReadDir]
    and [ReleaseDirHandle] of it panic and leave the struct alone. *)
Theorem handle_above_counter_unknown calls w req :
  Z.of_nat (length calls) < uint64_modulus ->
  nextHandleID (run calls) <= rdHandle req ->
  ReadDir (run calls) w req = (Panics, run calls) /\
  ReleaseDirHandle (run calls) (rdHandle req) = (Panics, run calls).
Proof.
  intros Hb Hh. destruct (HandlesOK_run calls Hb) as [Ho _].
  assert (Hn : handles (run calls) !! rdHandle req = None).
  { apply eq_None_not_Some. intros [dh H].
    apply (handles_keys _ Ho) in H. lia. }
  unfold ReadDir, ReleaseDirHandle. by rewrite Hn.
Qed.

Lemma handle_above_counter_unknown_witness :
  let calls := [(echoWorld, OpenDirReq RootInodeID)] in
  Z.of_nat (length calls) < uint64_modulus /\
  nextHandleID (run calls) <= 1 /\
  ReadDir (run calls) echoWorld (mkReadDirRequest 1 0) = (Panics, run calls).
Proof.
  intros calls.
  assert (H1 : Z.of_nat (length calls) < uint64_modulus) by reflexivity.
  assert (H2 : nextHandleID (run calls) <= rdHandle (mkReadDirRequest 1 0))
    by (intros E; discriminate E).
  refine (conj H1 (conj H2 _)).
  exact (proj1 (handle_above_counter_unknown calls echoWorld
                  (mkReadDirRequest 1 0) H1 H2)).
Defined.

(** * The program: calls served until the first panic *)






(** Every state of the program is the state of a run. *)
Lemma exec_is_run calls fs :
  exists served, exec fs calls = fold_left step served fs.
Proof.
  revert fs. induction calls as [|c calls IH]; intros fs.
  - by exists [].
  - cbn [exec]. destruct (panics fs c).
    + by exists [c].
    + destruct (IH (step fs c)) as [served H]. by exists (c :: served).
Qed.




(** ** Inode identifiers *)


(** ** The name index *)


(** ** Two lookups of one directory *)

(** C2 (the code departs from it): of two lookups of the directory
    "logs/" under the root of a fresh file system, which the bucket
    answers with a record of that name, the first panics on the nil
    [resp] once the inode is registered, so the program ends there and
    the second is not served; and served on the struct the first left,
    it would panic as well.  Neither caller is handed an identifier. *)
Theorem LookUpInode_twice_no_identifier :
  let c := (echoWorld, LookUpInodeReq RootInodeID "logs/") in
  (LookUpInode NewFileSystem echoWorld RootInodeID "logs/").1 = Panics /\
  program [c; c] = program [c] /\
  dirNameIndex (program [c; c]) !! "logs/" = Some (NewDirInode 2 "logs/") /\
  (LookUpInode (program [c]) echoWorld RootInodeID "logs/").1 = Panics.
Proof. vm_compute. repeat split; reflexivity. Qed.

(** ** Lookups of a name that is no directory name *)

(** C5 (as stated) fails: that the name asked for is not a directory name
    does not decide the call.  Under the root of a fresh file system,
    the lookup of "file.txt" over a bucket that has no such object
    returns the bucket's error, not the "TODO" one; and the lookup of
    "logs" over a bucket that answers with the record "logs/" mints an
    inode and panics. *)
Lemma LookUpInode_file_name_not_enough :
  (isDirName "file.txt" = false /\
   LookUpInode NewFileSystem failingWorld RootInodeID "file.txt"
   = (Returns None (Some "not found"), NewFileSystem) /\
   "not found" <> errTODO) /\
  (isDirName "logs" = false /\
   (LookUpInode NewFileSystem slashWorld RootInodeID "logs").1 = Panics /\
   nextInodeID (LookUpInode NewFileSystem slashWorld RootInodeID "logs").2
   = 3) /\
  ~ (forall w n,
       isDirName n = false ->
       LookUpInode NewFileSystem w RootInodeID n
       = (Returns None (Some errTODO), NewFileSystem)).
Proof.
  split; [|split].
  - split; [reflexivity|]. split; [reflexivity|discriminate].
  - split; [reflexivity|]. split; reflexivity.
  - intros H. specialize (H failingWorld "file.txt" eq_refl).
    discriminate H.
Qed.

(** ** The owner in attribute responses *)



(** ** When the handle counter wraps around *)




